(** * my-music-app: the playback controller of [frontend/src/App.jsx]

    A shallow embedding of the React component [App]: its state hooks, the
    event handlers [handleUpload], [handleRemove], [handleSelect],
    [handlePlayPause], [handleNext], [handlePrev], [handleEnded] and the
    settings buttons, followed by the properties of the playback controller.
    Around it: the seek bar and the mount effect of [App], the effects of
    [Player], the rows of [TrackList], and the upload and delete handlers of
    [backend/server.js].

    Conventions of the embedding.
    - Track indices are JavaScript numbers holding integers: [Z].
      [currentIndex] is a number or [null]: [option Z].
    - Times and the volume are numbers that the handlers only compare with
      constants and overwrite with constants: exact rationals [Q].
    - A handler runs against the values its closure captured at the last
      render and queues state updates ([useState] setters); the queue is
      applied once the handler has returned.  Handlers live in the monad [M],
      which records the queued updates and the calls on the audio element, and
      which can throw.
    - What the browser decides is an input of the handler: the value of
      [Math.floor(Math.random() * tracks.length)], the outcome of a [fetch],
      the identifiers minted for uploaded files.
    - Events are delivered one at a time and the component renders between
      two of them, so a handler's closure holds the current hook values.
      [step] runs one handler on its own and takes the awaits of a server
      branch within that run.  Sequences of events ([reachable]) are those
      of client-only mode, the mode the component ships in, where no handler
      reaches an [await].  The mount effect that loads the server's library
      is no event: it is modelled apart, as [loadLibrary]. *)

From Stdlib Require Import ZArith QArith List String Ascii Bool Lia.
Import ListNotations.
Local Open Scope string_scope.
Local Open Scope list_scope.
Local Open Scope Z_scope.

Set Implicit Arguments.

(** ** JavaScript values and operators *)

Module Js.

(** [ToNumber] on a value that is a number or [null]: [null] becomes [0]. *)
Definition toNumber (v : option Z) : Z :=
  match v with
  | Some n => n
  | None => 0
  end.

(** [n === v] for a number [n]: never true against [null]. *)
Definition strictEq (n : Z) (v : option Z) : bool :=
  match v with
  | Some m => n =? m
  | None => false
  end.

(** [n < v] for a number [n]: the relational operator converts [null]. *)
Definition lt (n : Z) (v : option Z) : bool := n <? toNumber v.

(** Truthiness of a string: only the empty string is falsy. *)
Definition truthy (s : string) : bool :=
  match s with
  | EmptyString => false
  | String _ _ => true
  end.

(** [a.length]. *)
Definition length {A} (a : list A) : Z := Z.of_nat (List.length a).

(** [a[i]] for an integer [i]: [undefined] outside the array. *)
Definition get {A} (a : list A) (i : Z) : option A :=
  if i <? 0 then None else nth_error a (Z.to_nat i).

(** [a.filter((x, i) => p x i)]: the callback also sees the position. *)
Fixpoint filter_from {A} (p : A -> Z -> bool) (k : Z) (a : list A) : list A :=
  match a with
  | [] => []
  | x :: r => if p x k then x :: filter_from p (k + 1) r
              else filter_from p (k + 1) r
  end.

Definition filter {A} (p : A -> Z -> bool) (a : list A) : list A :=
  filter_from p 0 a.

(** [x > y] on numbers. *)
Definition gt (x y : Q) : bool := negb (Qle_bool x y).

(** [s.replace(/\.[^.]+$/, '')]: drops a last extension, that is a dot
    followed by at least one character and no further dot up to the end. *)
Fixpoint dotless (s : string) : bool :=
  match s with
  | EmptyString => true
  | String c r => negb (Ascii.eqb c "."%char) && dotless r
  end.

Fixpoint strip_extension (s : string) : string :=
  match s with
  | EmptyString => EmptyString
  | String c r =>
      if Ascii.eqb c "."%char && truthy r && dotless r then EmptyString
      else String c (strip_extension r)
  end.

End Js.

(** ** Data model *)

Record Track := mkTrack { id : string; title : string; url : string }.

(** The three values of the [repeatMode] state: ['off'], ['all'], ['one']. *)
Inductive RepeatMode := off | all | one.

(** The state hooks of [App]. *)
Record State := mkState {
  tracks : list Track;
  currentIndex : option Z;
  isPlaying : bool;
  shuffle : bool;
  repeatMode : RepeatMode;
  volume : Q;
  currentTime : Q;
  duration : Q
}.

(** The <audio> element behind [audioRef.current]; [None] as duration is
    [NaN] (no metadata yet). *)
Record Audio := mkAudio { audio_currentTime : Q; audio_duration : option Q }.

(** Calls that leave the component. *)
Inductive Call :=
| seek (t : Q)                  (* audio.currentTime = t *)
| play                          (* audio.play() *)
| console_error (msg : string)  (* console.error(msg, err) *)
| reset_input.                  (* event.target.value = '' *)

(** The component between two events: hook values, the ref and the calls made
    so far. *)
Record World := mkWorld {
  state : State;
  audioRef : option Audio;
  calls : list Call
}.

(** [useState] initial values. *)
Definition initial_state : State :=
  mkState [] None false false off (8 # 10) 0 0.

(** A file of the <input>, with what the browser mints for it in client-only
    mode: the value of the template literal
    [`${Date.now()}-${Math.random().toString(36).slice(2, 8)}`] and of
    [URL.createObjectURL(file)]. *)
Record File := mkFile {
  name : string;
  minted_id : string;
  object_url : string
}.

(** Outcome of an awaited promise. *)
Inductive Settled (A : Type) :=
| fulfilled (a : A)
| rejected (err : string).
Arguments rejected {A} err.

(** ** Queued effects *)

Inductive Action :=
| setTracks (f : list Track -> list Track)
| setCurrentIndex (f : option Z -> option Z)
| setIsPlaying (f : bool -> bool)
| setShuffle (f : bool -> bool)
| setRepeatMode (f : RepeatMode -> RepeatMode)
| setVolume (f : Q -> Q)
| setCurrentTime (t : Q)
| setDuration (d : Q)
| audio_seek (t : Q)
| audio_play
| log_error (msg : string)
| input_reset.

(** A setter called with a value rather than with an updater function. *)
Definition to {A} (v : A) : A -> A := fun _ => v.

Definition apply_state (a : Action) (s : State) : State :=
  match a with
  | setTracks f =>
      mkState (f (tracks s)) (currentIndex s) (isPlaying s) (shuffle s)
              (repeatMode s) (volume s) (currentTime s) (duration s)
  | setCurrentIndex f =>
      mkState (tracks s) (f (currentIndex s)) (isPlaying s) (shuffle s)
              (repeatMode s) (volume s) (currentTime s) (duration s)
  | setIsPlaying f =>
      mkState (tracks s) (currentIndex s) (f (isPlaying s)) (shuffle s)
              (repeatMode s) (volume s) (currentTime s) (duration s)
  | setShuffle f =>
      mkState (tracks s) (currentIndex s) (isPlaying s) (f (shuffle s))
              (repeatMode s) (volume s) (currentTime s) (duration s)
  | setRepeatMode f =>
      mkState (tracks s) (currentIndex s) (isPlaying s) (shuffle s)
              (f (repeatMode s)) (volume s) (currentTime s) (duration s)
  | setVolume f =>
      mkState (tracks s) (currentIndex s) (isPlaying s) (shuffle s)
              (repeatMode s) (f (volume s)) (currentTime s) (duration s)
  | setCurrentTime t =>
      mkState (tracks s) (currentIndex s) (isPlaying s) (shuffle s)
              (repeatMode s) (volume s) t (duration s)
  | setDuration d =>
      mkState (tracks s) (currentIndex s) (isPlaying s) (shuffle s)
              (repeatMode s) (volume s) (currentTime s) d
  | audio_seek _ | audio_play | log_error _ | input_reset => s
  end.

Definition apply_audio (a : Action) (r : option Audio) : option Audio :=
  match a, r with
  | audio_seek t, Some el => Some (mkAudio t (audio_duration el))
  | _, _ => r
  end.

Definition emitted (a : Action) : list Call :=
  match a with
  | audio_seek t => [seek t]
  | audio_play => [play]
  | log_error msg => [console_error msg]
  | input_reset => [reset_input]
  | _ => []
  end.

Definition apply (w : World) (a : Action) : World :=
  mkWorld (apply_state a (state w)) (apply_audio a (audioRef w))
          (calls w ++ emitted a).

(** ** The handler monad: queued actions, and a result or a thrown error *)

Definition M (A : Type) : Type := (list Action * (string + A))%type.

Definition ret {A} (a : A) : M A := ([], inr a).

Definition bind {A B} (m : M A) (k : A -> M B) : M B :=
  match m with
  | (q, inl err) => (q, inl err)
  | (q, inr a) => let (q', r) := k a in (q ++ q', r)
  end.

Definition emit (a : Action) : M unit := ([a], inr tt).

(** [await p]: the value of a fulfilled promise, a throw for a rejected one. *)
Definition await {A} (p : Settled A) : M A :=
  match p with
  | fulfilled a => ret a
  | rejected err => ([], inl err)
  end.

(** [try { body } catch (err) { handler err }]. *)
Definition try_catch {A} (body : M A) (handler : string -> M A) : M A :=
  match body with
  | (q, inl err) => let (q', r) := handler err in (q ++ q', r)
  | (q, inr a) => (q, inr a)
  end.

Notation "x <- m ;; k" := (bind m (fun x => k))
  (at level 61, m at next level, right associativity).
Notation "m ;; k" := (bind m (fun _ => k))
  (at level 61, right associativity).

(** The handler returned without an uncaught error. *)
Definition returns {A} (m : M A) : Prop := exists a, snd m = inr a.

(** React applies the queue in order once the handler is done. *)
Definition perform {A} (w : World) (m : M A) : World :=
  fold_left apply (fst m) w.

(** ** The handlers of [App] *)

(** [const API_BASE = ""]: client-only mode as shipped.  The handlers take the
    base URL as an argument so that the server branch, which the README turns
    on by editing this constant, is covered too. *)
Definition API_BASE : string := "".

(** The tracks built by [files.map(...)] in client-only mode. *)
Definition newTracks (files : list File) : list Track :=
  map (fun file =>
         mkTrack (minted_id file) (Js.strip_extension (name file))
                 (object_url file))
      files.

(** [handleUpload].  [response] is the outcome of the two awaits of the server
    branch, [fetch(...)] then [res.json()]: the array of added tracks, or a
    rejection of either promise. *)
Definition handleUpload (api : string) (w : World) (files : list File)
    (response : Settled (list Track)) : M unit :=
  if Js.length files =? 0 then ret tt
  else
    (if negb (Js.truthy api) then
       emit (setTracks (fun prev => prev ++ newTracks files)) ;;
       match currentIndex (state w) with
       | None => emit (setCurrentIndex (to (Some 0)))
       | Some _ => ret tt
       end
     else
       try_catch
         (added <- await response ;;
          emit (setTracks (fun prev => prev ++ added)) ;;
          match currentIndex (state w) with
          | None =>
              if 0 <? Js.length added then emit (setCurrentIndex (to (Some 0)))
              else ret tt
          | Some _ => ret tt
          end)
         (fun _ => emit (log_error "Upload failed"))) ;;
    emit input_reset.

(** [prev.filter((_, i) => i !== index)]. *)
Definition without (index : Z) (prev : list Track) : list Track :=
  Js.filter (fun _ i => negb (i =? index)) prev.

(** [handleRemove].  [deleted] is the outcome of the awaited DELETE request of
    the server branch. *)
Definition handleRemove (api : string) (w : World) (index : Z)
    (deleted : Settled unit) : M unit :=
  let ci := currentIndex (state w) in
  match Js.get (tracks (state w)) index with
  | None => ret tt
  | Some track =>
      if negb (Js.truthy api) then
        emit (setTracks (without index)) ;;
        match ci with
        | Some c =>
            if index <? c then
              emit (setCurrentIndex (fun i => Some (Js.toNumber i - 1)))
            else if index =? c then
              emit (setIsPlaying (to false)) ;;
              emit (setCurrentIndex (to None))
            else ret tt
        | None => ret tt
        end
      else
        try_catch
          (await deleted ;;
           emit (setTracks (without index)) ;;
           if Js.lt index ci then
             emit (setCurrentIndex (fun i => Some (Js.toNumber i - 1)))
           else if Js.strictEq index ci then
             emit (setIsPlaying (to false)) ;;
             emit (setCurrentIndex (to None))
           else ret tt)
          (fun _ => emit (log_error "Failed to delete track"))
  end.

Definition handleSelect (w : World) (index : Z) : M unit :=
  if (index <? 0) || (index >=? Js.length (tracks (state w))) then ret tt
  else
    emit (setCurrentIndex (to (Some index))) ;;
    emit (setIsPlaying (to true)).

Definition handlePlayPause (w : World) : M unit :=
  match currentIndex (state w) with
  | None =>
      if Js.length (tracks (state w)) >? 0 then
        emit (setCurrentIndex (to (Some 0))) ;;
        emit (setIsPlaying (to true))
      else ret tt
  | Some _ => emit (setIsPlaying negb)
  end.

(** [handleNext].  [pick] is the value of
    [Math.floor(Math.random() * tracks.length)], only read in shuffle mode. *)
Definition handleNext (w : World) (pick : Z) : M unit :=
  let s := state w in
  let n := Js.length (tracks s) in
  if n =? 0 then ret tt
  else if shuffle s then
    let next :=
      if (n >? 1) && Js.strictEq pick (currentIndex s)
      then Z.rem (pick + 1) n else pick in
    emit (setCurrentIndex (to (Some next))) ;;
    emit (setIsPlaying (to true))
  else
    match currentIndex s with
    | None => ret tt
    | Some c =>
        let nextIndex := c + 1 in
        if nextIndex >=? n then
          match repeatMode s with
          | all =>
              emit (setCurrentIndex (to (Some 0))) ;;
              emit (setIsPlaying (to true))
          | _ => emit (setIsPlaying (to false))
          end
        else
          emit (setCurrentIndex (to (Some nextIndex))) ;;
          emit (setIsPlaying (to true))
    end.

(** [audio && audio.currentTime > 5]. *)
Definition past_five_seconds (r : option Audio) : bool :=
  match r with
  | Some audio => Js.gt (audio_currentTime audio) 5
  | None => false
  end.

Definition handlePrev (w : World) (pick : Z) : M unit :=
  let s := state w in
  let n := Js.length (tracks s) in
  if n =? 0 then ret tt
  else if past_five_seconds (audioRef w) then emit (audio_seek 0)
  else if shuffle s then
    let prev :=
      if (n >? 1) && Js.strictEq pick (currentIndex s)
      then Z.rem (pick + n - 1) n else pick in
    emit (setCurrentIndex (to (Some prev))) ;;
    emit (setIsPlaying (to true))
  else
    match currentIndex s with
    | None => ret tt
    | Some c =>
        let prevIndex := c - 1 in
        if prevIndex <? 0 then
          match repeatMode s with
          | all =>
              emit (setCurrentIndex (to (Some (n - 1)))) ;;
              emit (setIsPlaying (to true))
          | _ => emit (setIsPlaying (to false))
          end
        else
          emit (setCurrentIndex (to (Some prevIndex))) ;;
          emit (setIsPlaying (to true))
    end.

(** [handleEnded]; a rejection of [audio.play()] is swallowed by its
    [.catch(() => {})]. *)
Definition handleEnded (w : World) (pick : Z) : M unit :=
  match repeatMode (state w) with
  | one =>
      match audioRef w with
      | Some _ => emit (audio_seek 0) ;; emit audio_play
      | None => ret tt
      end
  | _ => handleNext w pick
  end.

Definition toggleRepeatMode : M unit :=
  emit (setRepeatMode (fun mode =>
                         match mode with
                         | off => all
                         | all => one
                         | one => off
                         end)).

Definition toggleShuffle : M unit := emit (setShuffle negb).

(** The [onClick] of the volume button:
    [setVolume((v) => (v > 0 ? 0 : 0.8))]. *)
Definition mute_toggle (v : Q) : Q := if Js.gt v 0 then 0%Q else (8 # 10)%Q.

Definition onClickVolume : M unit := emit (setVolume mute_toggle).

(** The [onChange] of the volume slider: [setVolume(parseFloat(...))]. *)
Definition onChangeVolume (v : Q) : M unit := emit (setVolume (to v)).

(** The listener [update] of [timeupdate] and [loadedmetadata]. *)
Definition update (w : World) : M unit :=
  match audioRef w with
  | Some audio =>
      emit (setCurrentTime (audio_currentTime audio)) ;;
      emit (setDuration (match audio_duration audio with
                         | None => 0%Q
                         | Some d => d
                         end))
  | None => ret tt
  end.

(** ** Events and the transition function *)

Inductive Event :=
| Upload (files : list File) (response : Settled (list Track))
| Remove (index : Z) (deleted : Settled unit)
| Select (index : Z)
| PlayPause
| Next (pick : Z)
| Previous (pick : Z)
| Ended (pick : Z)
| RepeatClick
| ShuffleClick
| VolumeClick
| VolumeChange (v : Q)
| TimeUpdate (now : Q) (total : option Q).

Definition handler (api : string) (w : World) (e : Event) : M unit :=
  match e with
  | Upload files response => handleUpload api w files response
  | Remove index deleted => handleRemove api w index deleted
  | Select index => handleSelect w index
  | PlayPause => handlePlayPause w
  | Next pick => handleNext w pick
  | Previous pick => handlePrev w pick
  | Ended pick => handleEnded w pick
  | RepeatClick => toggleRepeatMode
  | ShuffleClick => toggleShuffle
  | VolumeClick => onClickVolume
  | VolumeChange v => onChangeVolume v
  | TimeUpdate _ _ => update w
  end.

(** What the browser did before it delivered the event: for [TimeUpdate], the
    element moved its clock (playback, a seek, new metadata). *)
Definition before (w : World) (e : Event) : World :=
  match e with
  | TimeUpdate now total =>
      mkWorld (state w)
              (match audioRef w with
               | Some _ => Some (mkAudio now total)
               | None => None
               end)
              (calls w)
  | _ => w
  end.

Definition step (api : string) (w : World) (e : Event) : World :=
  perform (before w e) (handler api (before w e) e).

(** The browser hands a handler only values it can produce: the random pick
    lies in [[0, tracks.length)]. *)
Definition deliverable (w : World) (e : Event) : Prop :=
  match e with
  | Next pick | Previous pick | Ended pick =>
      Js.length (tracks (state w)) = 0 \/
      0 <= pick < Js.length (tracks (state w))
  | _ => True
  end.

(** The states the component reaches as shipped, in client-only mode
    ([API_BASE] is empty).  There no handler reaches an [await], so each one
    runs to completion within the event that started it, and the mount effect
    returns at once.  With a server configured, the code after an [await]
    runs later, against the closure of the click that started it, and the
    answer to the mount request can arrive at any time: such runs are not
    described by this relation. *)
Inductive reachable : World -> Prop :=
| reach_init : forall r, reachable (mkWorld initial_state r [])
| reach_step : forall w e,
    reachable w -> deliverable w e -> reachable (step API_BASE w e).

(** A sequence of events, delivered one at a time. *)
Definition run (api : string) (w : World) (events : list Event) : World :=
  fold_left (step api) events w.

(** ** The invariant of the data model *)

(** The invariant of the data model: an empty library has nothing selected
    and nothing playing, and a selected index is an index of the library. *)
Definition consistent (s : State) : Prop :=
  (Js.length (tracks s) = 0 -> currentIndex s = None /\ isPlaying s = false) /\
  (forall i, currentIndex s = Some i -> 0 <= i < Js.length (tracks s)).

(** What the handlers maintain step by step: playing needs a selection. *)
Definition selected_when_playing (s : State) : Prop :=
  (currentIndex s = None -> isPlaying s = false) /\
  (forall i, currentIndex s = Some i -> 0 <= i < Js.length (tracks s)).

(** ** Sample libraries *)

Definition song_a : Track := mkTrack "1-a" "A" "blob:a".
Definition song_b : Track := mkTrack "2-b" "B" "blob:b".
Definition song_c : Track := mkTrack "3-c" "C" "blob:c".

(** A mounted, silent audio element. *)
Definition fresh_audio : option Audio := Some (mkAudio 0 None).

(** Nothing selected, two tracks loaded, shuffle on. *)
Definition idle_shuffling : World :=
  mkWorld (mkState [song_a; song_b] None false true off (8 # 10) 0 0)
          fresh_audio [].

(** Nothing selected, two tracks loaded, shuffle off. *)
Definition idle_in_order : World :=
  mkWorld (mkState [song_a; song_b] None false false off (8 # 10) 0 0)
          fresh_audio [].

(** [song_b] of three tracks is playing, in order, no repeat. *)
Definition playing_b : World :=
  mkWorld (mkState [song_a; song_b; song_c] (Some 1) true false off
                   (8 # 10) 0 0)
          fresh_audio [].

(** The base URL the README gives for server mode. *)
Definition server : string := "http://localhost:4000".

(** [song_b] of three tracks is playing, shuffle on. *)
Definition shuffling_b : World :=
  mkWorld (mkState [song_a; song_b; song_c] (Some 1) true true off
                   (8 # 10) 0 0)
          fresh_audio [].

(** The last and the first of three tracks playing, in order, no repeat. *)
Definition playing_c : World :=
  mkWorld (mkState [song_a; song_b; song_c] (Some 2) true false off
                   (8 # 10) 0 0)
          fresh_audio [].

Definition playing_a : World :=
  mkWorld (mkState [song_a; song_b; song_c] (Some 0) true false off
                   (8 # 10) 0 0)
          fresh_audio [].

(** The first of two tracks playing under repeat-all. *)
Definition looping_a : World :=
  mkWorld (mkState [song_a; song_b] (Some 0) true false all (8 # 10) 0 0)
          fresh_audio [].

(** The first of two tracks has just run to its end under repeat-one. *)
Definition repeating_a : World :=
  mkWorld (mkState [song_a; song_b] (Some 0) true false one (8 # 10) 180 180)
          (Some (mkAudio 180 (Some 180%Q))) [].

(** The component right after mounting. *)
Definition mounted : World := mkWorld initial_state fresh_audio [].

Definition one_file : list File :=
  [mkFile "song.mp3" "1700000000000-k3x9qz" "blob:1"].

(** Half volume. *)
Definition quiet : World :=
  mkWorld (mkState [song_a] (Some 0) true false off (1 # 2) 0 0)
          fresh_audio [].

(** ** The rest of [App]: the seek bar, the mount effect, what is rendered *)


(** The effect that loads the library when the component mounts.  [response]
    is the outcome of its two awaits, [fetch(...)] then [res.json()]. *)
Definition loadLibrary (api : string) (response : Settled (list Track))
  : M unit :=
  if negb (Js.truthy api) then ret tt
  else
    try_catch
      (data <- await response ;;
       emit (setTracks (to data)) ;;
       if Js.length data >? 0 then emit (setCurrentIndex (to (Some 0)))
       else ret tt)
      (fun _ => emit (log_error "Failed to load tracks")).

(** The [track] prop handed to [Player]:
    [currentIndex !== null ? tracks[currentIndex] : null]; [undefined] and
    [null] are both [None], being told apart nowhere. *)
Definition current_track (s : State) : option Track :=
  match currentIndex s with
  | Some i => Js.get (tracks s) i
  | None => None
  end.

(** The text over the progress bar:
    [currentIndex !== null ? tracks[currentIndex]?.title : 'No track selected'];
    [None] is [undefined], which React renders as nothing. *)
Definition heading (s : State) : option string :=
  match currentIndex s with
  | Some i =>
      match Js.get (tracks s) i with
      | Some t => Some (title t)
      | None => None
      end
  | None => Some "No track selected"
  end.

(** ** [Player]: the effects on the audio element *)

(** What [Player] does to the element. *)
Inductive ElementCall :=
| set_volume (v : Q)     (* audio.volume = volume *)
| set_src (u : string)   (* audio.src = track.url *)
| element_play           (* audio.play(), a rejection is ignored *)
| element_pause.         (* audio.pause() *)

(** The props [App] renders [Player] with. *)
Record Props := mkProps {
  p_track : option Track;
  p_isPlaying : bool;
  p_volume : Q
}.

Definition props (s : State) : Props :=
  mkProps (current_track s) (isPlaying s) (volume s).

(** The three effects of [Player], in the order the component declares them;
    [r] is [ref.current]. *)
Definition volume_effect (r : option Audio) (p : Props) : list ElementCall :=
  match r with
  | Some _ => [set_volume (p_volume p)]
  | None => []
  end.

Definition source_effect (r : option Audio) (p : Props) : list ElementCall :=
  match r, p_track p with
  | Some _, Some track =>
      set_src (url track) :: (if p_isPlaying p then [element_play] else [])
  | _, _ => []
  end.

Definition playback_effect (r : option Audio) (p : Props) : list ElementCall :=
  match r with
  | Some _ => if p_isPlaying p then [element_play] else [element_pause]
  | None => []
  end.

(** The effects React runs after a render that follows the render with props
    [old]: those with a changed dependency, among [[volume, ref]],
    [[track, isPlaying, ref]] and [[isPlaying, ref]].  The ref object never
    changes.  [same_track] tells whether the [track] props of the two renders
    are the same object ([Object.is]). *)
Definition rerender (same_track : bool) (r : option Audio) (old new : Props)
  : list ElementCall :=
  (if Qeq_bool (p_volume old) (p_volume new) then []
   else volume_effect r new)
  ++ (if same_track && Bool.eqb (p_isPlaying old) (p_isPlaying new) then []
      else source_effect r new)
  ++ (if Bool.eqb (p_isPlaying old) (p_isPlaying new) then []
      else playback_effect r new).

(** ** [TrackList]: the rows of the library *)

(** A row: its React key, its text, whether it is highlighted
    ([idx === currentIndex]), and the index its click and its trash button
    pass to [onSelect] and [onRemove]. *)
Record Row := mkRow {
  key : string;
  label : string;
  highlighted : bool;
  row_index : Z
}.

(** [tracks.map((t, idx) => ...)]. *)
Fixpoint rows_from (current : option Z) (idx : Z) (library : list Track)
  : list Row :=
  match library with
  | [] => []
  | t :: rest =>
      mkRow (id t) (title t) (Js.strictEq idx current) idx
      :: rows_from current (idx + 1) rest
  end.

Definition TrackList (library : list Track) (current : option Z) : list Row :=
  rows_from current 0 library.

(** ** The server: [backend/server.js] *)

(** More of JavaScript's strings and arrays. *)

(** [s.split(sep)] up to its second piece, for a separator that is not
    empty: the text before the first occurrence of [sep], and the text after
    that occurrence when there is one. *)
Fixpoint skip_chars (n : nat) (s : string) : string :=
  match n, s with
  | S n', String _ r => skip_chars n' r
  | _, _ => s
  end.

Fixpoint cut (sep s : string) : string * option string :=
  if String.prefix sep s
  then (EmptyString, Some (skip_chars (String.length sep) s))
  else
    match s with
    | EmptyString => (EmptyString, None)
    | String c r => let (piece, rest) := cut sep r in (String c piece, rest)
    end.

(** [s.split(sep)[1]]; [None] is [undefined]. *)
Definition second_piece (sep s : string) : option string :=
  match snd (cut sep s) with
  | Some rest => Some (fst (cut sep rest))
  | None => None
  end.

(** [a.findIndex(p)]. *)
Fixpoint findIndex_from (p : Track -> bool) (k : Z) (a : list Track) : Z :=
  match a with
  | [] => -1
  | t :: r => if p t then k else findIndex_from p (k + 1) r
  end.

Definition findIndex (p : Track -> bool) (a : list Track) : Z :=
  findIndex_from p 0 a.

(** What the handlers read of a request. *)
Record Request := mkRequest {
  forwarded_proto : option string;  (* req.headers['x-forwarded-proto'] *)
  protocol : string;                (* req.protocol *)
  host : option string              (* req.headers.host *)
}.

(** [getOrigin]; a missing header is [undefined], which the template literal
    prints as such. *)
Definition getOrigin (req : Request) : string :=
  let proto :=
    match forwarded_proto req with
    | Some p => if Js.truthy p then p else protocol req
    | None => protocol req
    end in
  (proto ++ "://" ++ match host req with
                     | Some h => h
                     | None => "undefined"
                     end)%string.

Definition absoluteUrl (req : Request) (p : string) : string :=
  (getOrigin req ++ (if String.prefix "/" p then p else "/" ++ p))%string.

(** The characters that [/[^a-zA-Z0-9_.-]/g] leaves alone. *)
Definition kept (c : ascii) : bool :=
  let n := nat_of_ascii c in
  ((97 <=? n) && (n <=? 122))%nat || ((65 <=? n) && (n <=? 90))%nat
  || ((48 <=? n) && (n <=? 57))%nat
  || Ascii.eqb c "_" || Ascii.eqb c "." || Ascii.eqb c "-".

(** [file.originalname.replace(/[^a-zA-Z0-9_.-]/g, '_')]. *)
Fixpoint safe (originalname : string) : string :=
  match originalname with
  | EmptyString => EmptyString
  | String c r => String (if kept c then c else "_"%char) (safe r)
  end.

(** The [filename] callback of the multer storage; [ts] is the text of
    [Date.now()]. *)
Definition stored_name (ts originalname : string) : string :=
  (ts ++ "__" ++ safe originalname)%string.

(** A file of [req.files], with the id the handler mints for it. *)
Record Received := mkReceived {
  originalname : string;
  filename : string;
  minted : string
}.

(** The track the upload handler builds for one file. *)
Definition track_of (req : Request) (file : Received) : Track :=
  mkTrack (minted file) (Js.strip_extension (originalname file))
          (absoluteUrl req ("/uploads/" ++ filename file)).

(** [POST /api/upload]: the library afterwards, and the array answered.
    [None] for [req.files] is [undefined]. *)
Definition post_upload (req : Request) (files : option (list Received))
    (library : list Track) : list Track * list Track :=
  fold_left (fun (acc : list Track * list Track) file =>
               (fst acc ++ [track_of req file], snd acc ++ [track_of req file]))
            (match files with
             | Some fs => fs
             | None => []
             end)
            (library, []).

(** What the delete handler answers. *)
Inductive Reply :=
| ok_true         (* res.json({ ok: true }) *)
| not_found       (* res.status(404).json({ error: 'Not found' }) *)
| type_error.     (* reading [url] of [undefined] *)

(** [DELETE /api/tracks/:id]: the library afterwards, the answer, and the
    name handed to [path.join(UPLOAD_DIR, ...)] for [unlink], if any. *)
Definition delete_track (req : Request) (wanted : string)
    (library : list Track) : list Track * Reply * option (option string) :=
  let idx := findIndex (fun t => String.eqb (id t) wanted) library in
  if idx =? -1 then (library, not_found, None)
  else
    let after := firstn (Z.to_nat idx) library
                 ++ skipn (S (Z.to_nat idx)) library in
    match Js.get library idx with
    | None => (after, type_error, None)
    | Some track =>
        if String.prefix (getOrigin req ++ "/uploads/") (url track)
        then (after, ok_true, Some (second_piece "/uploads/" (url track)))
        else (after, ok_true, None)
    end.

(** No [/] anywhere. *)
Fixpoint slashless (s : string) : bool :=
  match s with
  | EmptyString => true
  | String c r => negb (Ascii.eqb c "/") && slashless r
  end.

(** * Properties *)

(** ** Arrays *)

Lemma length_nonneg {A} (a : list A) : 0 <= Js.length a.
Proof. unfold Js.length. lia. Qed.

Lemma length_zero {A} (a : list A) : Js.length a = 0 <-> a = [].
Proof.
  unfold Js.length. destruct a; simpl; split; intro H;
    try reflexivity; try discriminate; lia.
Qed.

Lemma length_app {A} (a b : list A) :
  Js.length (a ++ b) = Js.length a + Js.length b.
Proof. unfold Js.length. rewrite List.length_app. lia. Qed.

Lemma get_in_range {A} (a : list A) (i : Z) :
  0 <= i < Js.length a <-> exists x, Js.get a i = Some x.
Proof.
  unfold Js.get, Js.length. destruct (Z.ltb_spec i 0) as [Hneg | Hpos].
  - split; [lia | intros [x Hx]; discriminate].
  - split.
    + intros [_ Hlt].
      destruct (nth_error a (Z.to_nat i)) as [x |] eqn:E; [now exists x |].
      apply nth_error_None in E. lia.
    + intros [x Hx]. split; [assumption |].
      assert (Z.to_nat i < List.length a)%nat.
      { apply nth_error_Some. rewrite Hx. discriminate. }
      lia.
Qed.

(** JavaScript's [%] is the truncating remainder; on the operands the handlers
    give it, it is the modulus. *)
Lemma rem_is_mod (a n : Z) : 0 <= a -> 0 < n -> Z.rem a n = a mod n.
Proof. intros Ha Hn. apply Z.rem_mod_nonneg; lia. Qed.

(** Past the removed position the filter keeps everything. *)
Lemma filter_from_beyond (index : Z) (a : list Track) :
  forall k, index < k ->
    Js.filter_from (fun (_ : Track) i => negb (i =? index)) k a = a.
Proof.
  induction a as [| x r IH]; intros k Hk; simpl.
  - reflexivity.
  - destruct (Z.eqb_spec k index) as [-> | _]; [lia |].
    simpl. f_equal. apply IH. lia.
Qed.

Lemma filter_from_drops (a : list Track) :
  forall k index, k <= index ->
    Js.filter_from (fun (_ : Track) i => negb (i =? index)) k a
    = firstn (Z.to_nat (index - k)) a ++ skipn (S (Z.to_nat (index - k))) a.
Proof.
  induction a as [| x r IH]; intros k index Hk; simpl.
  - now destruct (Z.to_nat (index - k)).
  - destruct (Z.eqb_spec k index) as [-> | Hne]; simpl.
    + rewrite Z.sub_diag. simpl. apply filter_from_beyond. lia.
    + replace (Z.to_nat (index - k)) with (S (Z.to_nat (index - (k + 1))))
        by lia.
      simpl. f_equal. apply IH. lia.
Qed.

(** [without index] removes exactly the element at [index] and keeps the
    others in their order. *)
Lemma without_spec (index : Z) (a : list Track) :
  0 <= index ->
  without index a
  = firstn (Z.to_nat index) a ++ skipn (S (Z.to_nat index)) a.
Proof.
  intros H. unfold without, Js.filter.
  rewrite (@filter_from_drops a 0 index H). now rewrite Z.sub_0_r.
Qed.

Lemma without_length (index : Z) (a : list Track) :
  0 <= index < Js.length a ->
  Js.length (without index a) = Js.length a - 1.
Proof.
  intros [H0 H1]. rewrite without_spec by assumption.
  unfold Js.length in *.
  rewrite List.length_app, List.length_firstn, List.length_skipn. lia.
Qed.

(** ** Reading a handler off a world *)

(** Splits a world into its hook values, so that a handler's tests reduce. *)
Ltac open_world w :=
  let tr := fresh "tr" in let ci := fresh "ci" in let ip := fresh "ip" in
  let sh := fresh "sh" in let rm := fresh "rm" in let vol := fresh "vol" in
  let ct := fresh "ct" in let du := fresh "du" in
  let ar := fresh "ar" in let cl := fresh "cl" in
  destruct w as [[tr ci ip sh rm vol ct du] ar cl]; simpl in *.

(** Decides the integer tests a handler branches on. *)
Ltac decide_tests :=
  repeat match goal with
         | |- context [?a =? ?b] => destruct (Z.eqb_spec a b); simpl
         | |- context [?a <? ?b] => destruct (Z.ltb_spec a b); simpl
         | |- context [?a >? ?b] =>
             rewrite (Z.gtb_ltb a b); destruct (Z.ltb_spec b a); simpl
         | |- context [?a >=? ?b] =>
             rewrite (Z.geb_leb a b); destruct (Z.leb_spec b a); simpl
         end.

Lemma past_five_seconds_false (r : option Audio) :
  past_five_seconds r = false <->
  (forall audio, r = Some audio -> (audio_currentTime audio <= 5)%Q).
Proof.
  unfold past_five_seconds, Js.gt. destruct r as [audio |]; split.
  - intros H a [= <-]. apply Qle_bool_iff.
    now destruct (Qle_bool (audio_currentTime audio) 5).
  - intros H. specialize (H audio eq_refl). apply Qle_bool_iff in H.
    now rewrite H.
  - intros _ a [=].
  - reflexivity.
Qed.

Section Controller.

(** The base URL the component was built with. *)
Variable api : string.

(** ** Nothing selected (C1) *)

(** C1 as stated fails.  With shuffle on, the random branch of [handleNext]
    and [handlePrev] comes before the test [currentIndex === null]: from
    nothing selected and nothing playing, Next, Previous and Ended select the
    picked track and set [isPlaying]. *)
Lemma idle_shuffle_starts_pick :
  currentIndex (state idle_shuffling) = None /\
  isPlaying (state idle_shuffling) = false /\
  state (step API_BASE idle_shuffling (Next 1))
  = mkState [song_a; song_b] (Some 1) true true off (8 # 10) 0 0 /\
  state (step API_BASE idle_shuffling (Previous 1))
  = mkState [song_a; song_b] (Some 1) true true off (8 # 10) 0 0 /\
  state (step API_BASE idle_shuffling (Ended 1))
  = mkState [song_a; song_b] (Some 1) true true off (8 # 10) 0 0.
Proof. repeat split. Qed.

(** C1, amended.  With [currentIndex] none, [handleNext] changes no hook
    value when shuffle is off or the library is empty; so does [handlePrev],
    also when more than five seconds have elapsed, and [handleEnded], also
    under repeat-one.  In particular [currentIndex] stays none and
    [isPlaying] is what it was, whatever the repeat mode.  With shuffle on and
    a non-empty library, the handlers that reach the shuffle branch select the
    pick and set [isPlaying]. *)
Theorem idle_stays_idle (w : World) (pick : Z) :
  currentIndex (state w) = None ->
  (shuffle (state w) = false \/ tracks (state w) = [] ->
   state (step api w (Next pick)) = state w) /\
  (shuffle (state w) = false \/ tracks (state w) = [] \/
   past_five_seconds (audioRef w) = true ->
   state (step api w (Previous pick)) = state w) /\
  (shuffle (state w) = false \/ tracks (state w) = [] \/
   repeatMode (state w) = one ->
   state (step api w (Ended pick)) = state w) /\
  (shuffle (state w) = true -> tracks (state w) <> [] ->
   forall e,
     e = Next pick \/
     (e = Previous pick /\ past_five_seconds (audioRef w) = false) \/
     (e = Ended pick /\ repeatMode (state w) <> one) ->
     currentIndex (state (step api w e)) = Some pick /\
     isPlaying (state (step api w e)) = true).
Proof.
  intros Hnone. open_world w. subst ci.
  unfold step, handler, before, perform, handleEnded, handleNext, handlePrev.
  simpl. split; [| split; [| split]].
  - intros [-> | ->]; simpl; [| reflexivity].
    now destruct (Js.length tr =? 0).
  - intros [-> | [-> | Hfive]]; simpl; [| reflexivity |].
    + destruct (Js.length tr =? 0); [reflexivity |].
      now destruct (past_five_seconds ar).
    + rewrite Hfive. now destruct (Js.length tr =? 0).
  - intros [-> | [-> | ->]]; simpl.
    + destruct rm; simpl; try (now destruct (Js.length tr =? 0)).
      now destruct ar.
    + destruct rm; simpl; try reflexivity. now destruct ar.
    + now destruct ar.
  - intros -> Htr e He.
    assert (Hlen : (Js.length tr =? 0) = false).
    { apply Z.eqb_neq. now rewrite length_zero. }
    destruct He as [-> | [[-> Hfive] | [-> Hrm]]]; simpl.
    + rewrite Hlen, andb_false_r. now split.
    + rewrite Hlen, Hfive, andb_false_r. now split.
    + destruct rm; try congruence; rewrite Hlen, andb_false_r; now split.
Qed.

(** ** Shuffle (C2) *)

(** The index the shuffle branch settles on, for a pick in range and more
    than one track: in range, and different from [current]. *)
Lemma forward_adjust (n pick : Z) (current : option Z) :
  1 < n -> 0 <= pick < n ->
  let next := if (n >? 1) && Js.strictEq pick current
              then Z.rem (pick + 1) n else pick in
  0 <= next < n /\ Some next <> current /\
  (current = Some pick -> next = (pick + 1) mod n) /\
  (current <> Some pick -> next = pick).
Proof.
  intros Hn Hpick. rewrite Z.gtb_ltb.
  destruct (Z.ltb_spec 1 n) as [_ | ?]; [simpl | lia].
  destruct current as [c |]; simpl.
  - destruct (Z.eqb_spec pick c) as [<- | Hne].
    + rewrite rem_is_mod by lia.
      assert (0 <= (pick + 1) mod n < n) by (apply Z.mod_pos_bound; lia).
      repeat split; try lia; try congruence.
      intros [= E].
      destruct (Z.eq_dec (pick + 1) n) as [Hlast | Hmid].
      * rewrite Hlast, Z.mod_same in E by lia. lia.
      * rewrite Z.mod_small in E by lia. lia.
    + repeat split; try lia; congruence.
  - repeat split; try lia; congruence.
Qed.

Lemma backward_adjust (n pick : Z) (current : option Z) :
  1 < n -> 0 <= pick < n ->
  let prev := if (n >? 1) && Js.strictEq pick current
              then Z.rem (pick + n - 1) n else pick in
  0 <= prev < n /\ Some prev <> current /\
  (current = Some pick -> prev = (pick - 1) mod n) /\
  (current <> Some pick -> prev = pick).
Proof.
  intros Hn Hpick. rewrite Z.gtb_ltb.
  destruct (Z.ltb_spec 1 n) as [_ | ?]; [simpl | lia].
  destruct current as [c |]; simpl.
  - destruct (Z.eqb_spec pick c) as [<- | Hne].
    + rewrite rem_is_mod by lia.
      replace (pick + n - 1) with (pick - 1 + 1 * n) by lia.
      rewrite Z.mod_add by lia.
      assert (0 <= (pick - 1) mod n < n) by (apply Z.mod_pos_bound; lia).
      repeat split; try lia; try congruence.
      intros [= E].
      destruct (Z.eq_dec pick 0) as [Hfirst | Hmid].
      * subst pick. simpl in E.
        replace (-1) with (n - 1 + (-1) * n) in E by lia.
        rewrite Z.mod_add, Z.mod_small in E by lia. lia.
      * rewrite Z.mod_small in E by lia. lia.
    + repeat split; try lia; congruence.
  - repeat split; try lia; congruence.
Qed.

(** C2.  Shuffle on, more than one track, the pick anywhere in
    [[0, length)]: [handleNext] (and so [handleEnded] outside repeat-one)
    and [handlePrev] (when it does not restart the track) select an index in
    range that differs from the current one, and start playing.  The index
    is the pick, except on a collision, where it is [(pick + 1) mod length],
    respectively [(pick - 1) mod length]. *)
Theorem shuffle_never_repeats (w : World) (pick : Z) :
  shuffle (state w) = true ->
  1 < Js.length (tracks (state w)) ->
  0 <= pick < Js.length (tracks (state w)) ->
  let n := Js.length (tracks (state w)) in
  let current := currentIndex (state w) in
  (forall e, e = Next pick \/ (e = Ended pick /\ repeatMode (state w) <> one) ->
     exists next,
       currentIndex (state (step api w e)) = Some next /\
       isPlaying (state (step api w e)) = true /\
       0 <= next < n /\ Some next <> current /\
       (current = Some pick -> next = (pick + 1) mod n) /\
       (current <> Some pick -> next = pick)) /\
  (past_five_seconds (audioRef w) = false ->
     exists prev,
       currentIndex (state (step api w (Previous pick))) = Some prev /\
       isPlaying (state (step api w (Previous pick))) = true /\
       0 <= prev < n /\ Some prev <> current /\
       (current = Some pick -> prev = (pick - 1) mod n) /\
       (current <> Some pick -> prev = pick)).
Proof.
  intros Hsh Hn Hpick n current. subst n current.
  pose proof (@forward_adjust _ pick (currentIndex (state w)) Hn Hpick) as F.
  pose proof (@backward_adjust _ pick (currentIndex (state w)) Hn Hpick) as B.
  open_world w. subst sh.
  assert (Hlen : (Js.length tr =? 0) = false) by (apply Z.eqb_neq; lia).
  split.
  - intros e He.
    assert (E : state (step api (mkWorld (mkState tr ci ip true rm vol ct du)
                                         ar cl) e)
                = mkState tr
                    (Some (if (Js.length tr >? 1) && Js.strictEq pick ci
                           then Z.rem (pick + 1) (Js.length tr) else pick))
                    true true rm vol ct du).
    { destruct He as [-> | [-> Hrm]];
        unfold step, handler, before, perform, handleEnded, handleNext;
        simpl; [| destruct rm; try congruence]; now rewrite Hlen. }
    rewrite E. simpl. eexists. split; [reflexivity |].
    split; [reflexivity | exact F].
  - intros Hfive.
    unfold step, handler, before, perform, handlePrev. simpl.
    rewrite Hlen, Hfive. simpl. eexists. split; [reflexivity |].
    split; [reflexivity | exact B].
Qed.

(** ** In order, no repeat (C3) *)

(** C3.  A non-empty library, shuffle off, repeat off: [handleNext] at the
    last index sets [isPlaying] to false and keeps [currentIndex]; so does
    [handlePrev] at index 0 when at most five seconds have elapsed. *)
Theorem off_stops_at_both_ends (w : World) (pick : Z) :
  0 < Js.length (tracks (state w)) ->
  shuffle (state w) = false ->
  repeatMode (state w) = off ->
  (currentIndex (state w) = Some (Js.length (tracks (state w)) - 1) ->
   isPlaying (state (step api w (Next pick))) = false /\
   currentIndex (state (step api w (Next pick)))
   = Some (Js.length (tracks (state w)) - 1)) /\
  (currentIndex (state w) = Some 0 ->
   (forall audio, audioRef w = Some audio ->
                  (audio_currentTime audio <= 5)%Q) ->
   isPlaying (state (step api w (Previous pick))) = false /\
   currentIndex (state (step api w (Previous pick))) = Some 0).
Proof.
  intros Hn Hsh Hrm. open_world w. subst sh rm.
  unfold step, handler, before, perform, handleNext, handlePrev. simpl.
  assert (Hlen : (Js.length tr =? 0) = false) by (apply Z.eqb_neq; lia).
  rewrite Hlen. split.
  - intros ->. decide_tests; [split; reflexivity | lia].
  - intros -> Hfive. apply past_five_seconds_false in Hfive.
    rewrite Hfive. simpl. split; reflexivity.
Qed.

(** ** Repeat all (C4) *)

(** One [handleNext] in order under repeat-all. *)
Lemma next_under_all (tr : list Track) (i : Z) (ip : bool) (vol ct du : Q)
    (ar : option Audio) (cl : list Call) (pick : Z) :
  0 <= i < Js.length tr ->
  step api (mkWorld (mkState tr (Some i) ip false all vol ct du) ar cl)
       (Next pick)
  = mkWorld (mkState tr (Some ((i + 1) mod Js.length tr)) true false all
                     vol ct du) ar cl.
Proof.
  intros Hi. unfold step, handler, before, perform, handleNext. simpl.
  assert (Hlen : (Js.length tr =? 0) = false) by (apply Z.eqb_neq; lia).
  rewrite Hlen. decide_tests.
  - assert (i + 1 = Js.length tr) as -> by lia.
    rewrite Z.mod_same by lia. unfold apply. simpl.
    now rewrite !app_nil_r.
  - rewrite Z.mod_small by lia. unfold apply. simpl.
    now rewrite !app_nil_r.
Qed.

(** Any number of them. *)
Lemma nexts_under_all (tr : list Track) (vol ct du : Q) (ar : option Audio)
    (cl : list Call) (picks : list Z) :
  forall (i : Z) (ip : bool),
    0 <= i < Js.length tr ->
    run api (mkWorld (mkState tr (Some i) ip false all vol ct du) ar cl)
        (map Next picks)
    = mkWorld (mkState tr (Some ((i + Js.length picks) mod Js.length tr))
                       (match picks with [] => ip | _ => true end)
                       false all vol ct du) ar cl.
Proof.
  induction picks as [| pick rest IH]; intros i ip Hi.
  - simpl. unfold Js.length at 1. simpl.
    now rewrite Z.add_0_r, Z.mod_small by lia.
  - unfold run in *. simpl. rewrite next_under_all by assumption.
    rewrite IH by (apply Z.mod_pos_bound; lia).
    rewrite Zplus_mod_idemp_l.
    replace (i + 1 + Js.length rest) with (i + Js.length (pick :: rest))
      by (unfold Js.length; simpl List.length; lia).
    now destruct rest.
Qed.

(** C4.  A non-empty library, shuffle off, repeat all, [currentIndex = i]
    in range.  [handleNext] moves to [(i + 1) mod length] and plays; after
    [k >= 1] calls the index is [(i + k) mod length] and [isPlaying] is
    true, so [length] calls come back to [i] and every index [j] is visited
    on the way; [handlePrev] at index 0, at most five seconds in, wraps to
    [length - 1] and plays. *)
Theorem all_cycles_forever (w : World) (i : Z) :
  shuffle (state w) = false ->
  repeatMode (state w) = all ->
  currentIndex (state w) = Some i ->
  0 <= i < Js.length (tracks (state w)) ->
  let n := Js.length (tracks (state w)) in
  (forall pick,
      currentIndex (state (step api w (Next pick))) = Some ((i + 1) mod n) /\
      isPlaying (state (step api w (Next pick))) = true) /\
  (forall picks, picks <> [] ->
      currentIndex (state (run api w (map Next picks)))
      = Some ((i + Js.length picks) mod n) /\
      isPlaying (state (run api w (map Next picks))) = true) /\
  (forall picks, Js.length picks = n ->
      currentIndex (state (run api w (map Next picks))) = Some i) /\
  (forall j, 0 <= j < n ->
      exists k, (0 < k <= Z.to_nat n)%nat /\
        forall picks, List.length picks = k ->
          currentIndex (state (run api w (map Next picks))) = Some j) /\
  (i = 0 ->
   (forall audio, audioRef w = Some audio ->
                  (audio_currentTime audio <= 5)%Q) ->
   forall pick,
     currentIndex (state (step api w (Previous pick))) = Some (n - 1) /\
     isPlaying (state (step api w (Previous pick))) = true).
Proof.
  intros Hsh Hrm Hci Hi n. subst n. open_world w. subst sh rm ci.
  split; [| split; [| split; [| split]]].
  - intros pick. rewrite next_under_all by assumption. now split.
  - intros picks Hne. rewrite nexts_under_all by assumption. simpl.
    split; [reflexivity | now destruct picks].
  - intros picks Hk. rewrite nexts_under_all by assumption. simpl.
    rewrite Hk. replace (i + Js.length tr) with (i + 1 * Js.length tr) by lia.
    now rewrite Z.mod_add, Z.mod_small by lia.
  - intros j Hj.
    (* the number of steps from i round to j, a full turn when j = i *)
    exists (Z.to_nat (if i <? j then j - i else j - i + Js.length tr)).
    split.
    + destruct (Z.ltb_spec i j); lia.
    + intros picks Hk. rewrite nexts_under_all by assumption. simpl.
      unfold Js.length at 1. rewrite Hk. f_equal.
      destruct (Z.ltb_spec i j).
      * rewrite Z2Nat.id by lia.
        replace (i + (j - i)) with j by lia. apply Z.mod_small. lia.
      * rewrite Z2Nat.id by lia.
        replace (i + (j - i + Js.length tr)) with (j + 1 * Js.length tr)
          by lia.
        rewrite Z.mod_add by lia. apply Z.mod_small. lia.
  - intros -> Hfive pick. apply past_five_seconds_false in Hfive.
    unfold step, handler, before, perform, handlePrev. simpl.
    assert (Hlen : (Js.length tr =? 0) = false) by (apply Z.eqb_neq; lia).
    rewrite Hlen, Hfive. simpl. now split.
Qed.

(** ** Repeat one (C5) *)

(** C5.  Under repeat-one [handleEnded] changes no hook value: library,
    [currentIndex], [isPlaying], [shuffle], [repeatMode], [volume] are what
    they were.  It returns normally, and all it does is rewind the mounted
    audio element and play it: [seek 0] then [play], nothing when no element
    is mounted.  What it queues depends on the ref alone, neither on the
    library nor on the index nor on the pick. *)
Theorem one_restarts_in_place (w : World) (pick : Z) :
  repeatMode (state w) = one ->
  state (step api w (Ended pick)) = state w /\
  returns (handleEnded w pick) /\
  (forall audio, audioRef w = Some audio ->
     calls (step api w (Ended pick)) = calls w ++ [seek 0; play] /\
     audioRef (step api w (Ended pick))
     = Some (mkAudio 0 (audio_duration audio))) /\
  (audioRef w = None -> step api w (Ended pick) = w) /\
  (forall w' pick',
     repeatMode (state w') = one -> audioRef w' = audioRef w ->
     handleEnded w' pick' = handleEnded w pick).
Proof.
  intros Hone. unfold step, handler, before, handleEnded, perform, returns.
  rewrite Hone. destruct w as [s ar cl]. simpl.
  destruct ar as [audio |]; simpl.
  - split; [now destruct s |].
    split; [now exists tt |].
    split; [| split; [discriminate |]].
    + intros a [= <-]. now rewrite <- app_assoc.
    + intros w' pick' -> ->. reflexivity.
  - split; [reflexivity |].
    split; [now exists tt |].
    split; [discriminate |].
    split; [reflexivity |].
    intros w' pick' -> ->. reflexivity.
Qed.

(** ** Removing a track (C6) *)

(** C6.  [handleRemove] on the index [j] of a track, with [currentIndex = i],
    in client-only mode or once the DELETE request has gone through: the
    library loses exactly the track at [j], the others keeping their order;
    [j < i] moves [currentIndex] to [i - 1] and leaves [isPlaying];
    [j = i] clears [currentIndex] and sets [isPlaying] to false; [j > i]
    leaves both. *)
Theorem remove_rebases_index (w : World) (i j : Z) (deleted : Settled unit) :
  currentIndex (state w) = Some i ->
  0 <= j < Js.length (tracks (state w)) ->
  Js.truthy api = false \/ deleted = fulfilled tt ->
  let w' := step api w (Remove j deleted) in
  tracks (state w')
  = firstn (Z.to_nat j) (tracks (state w))
    ++ skipn (S (Z.to_nat j)) (tracks (state w)) /\
  Js.length (tracks (state w')) = Js.length (tracks (state w)) - 1 /\
  (j < i -> currentIndex (state w') = Some (i - 1) /\
            isPlaying (state w') = isPlaying (state w)) /\
  (j = i -> currentIndex (state w') = None /\
            isPlaying (state w') = false) /\
  (j > i -> currentIndex (state w') = Some i /\
            isPlaying (state w') = isPlaying (state w)).
Proof.
  intros Hci Hj Hmode w'. subst w'.
  pose proof (@without_spec j (tracks (state w)) (proj1 Hj)) as Hlist.
  pose proof (@without_length j (tracks (state w)) Hj) as Hsize.
  destruct (proj1 (get_in_range (tracks (state w)) j) Hj) as [track Hget].
  open_world w. subst ci.
  assert (E : state (step api (mkWorld (mkState tr (Some i) ip sh rm vol ct du)
                                       ar cl) (Remove j deleted))
              = mkState (without j tr)
                  (if j <? i then Some (i - 1)
                   else if j =? i then None else Some i)
                  (if j <? i then ip else if j =? i then false else ip)
                  sh rm vol ct du).
  { unfold step, handler, before, perform, handleRemove. simpl.
    rewrite Hget.
    destruct (Js.truthy api) eqn:Hapi; simpl.
    - destruct Hmode as [? | ->]; [discriminate |]. simpl.
      unfold Js.lt. simpl. now decide_tests.
    - now decide_tests. }
  rewrite E. simpl. rewrite <- Hlist.
  repeat split; try assumption; intros; decide_tests;
    try reflexivity; lia.
Qed.

(** ** The selection invariant (C7) *)

Lemma selected_when_playing_consistent (s : State) :
  selected_when_playing s -> consistent s.
Proof.
  intros [Hidle Hrange]. split; [| exact Hrange].
  intros Hempty. destruct (currentIndex s) as [i |] eqn:E.
  - specialize (Hrange i eq_refl). lia.
  - split; [reflexivity | now apply Hidle].
Qed.

(** Closes an invariant goal once the handler has been run. *)
Ltac settle :=
  unfold selected_when_playing; simpl; split;
  [ intros; try discriminate; auto
  | let E := fresh "E" in
    intros ? E; try discriminate;
    try (injection E as E; subst); try lia; auto ].

Lemma adjust_in_range (n pick : Z) (current : option Z) :
  0 < n -> 0 <= pick < n ->
  0 <= (if (n >? 1) && Js.strictEq pick current
        then Z.rem (pick + 1) n else pick) < n /\
  0 <= (if (n >? 1) && Js.strictEq pick current
        then Z.rem (pick + n - 1) n else pick) < n.
Proof.
  intros Hn Hpick.
  destruct ((n >? 1) && Js.strictEq pick current); [| lia].
  rewrite !rem_is_mod by lia. split; apply Z.mod_pos_bound; lia.
Qed.

Lemma handleSelect_keeps (w : World) (index : Z) :
  selected_when_playing (state w) ->
  selected_when_playing (state (perform w (handleSelect w index))).
Proof.
  intros [Hidle Hrange]. open_world w. unfold perform, handleSelect. simpl.
  decide_tests; settle.
Qed.

Lemma handlePlayPause_keeps (w : World) :
  selected_when_playing (state w) ->
  selected_when_playing (state (perform w (handlePlayPause w))).
Proof.
  intros [Hidle Hrange]. open_world w. unfold perform, handlePlayPause.
  simpl. destruct ci as [c |]; simpl; [settle |].
  decide_tests; settle.
Qed.

Lemma handleNext_keeps (w : World) (pick : Z) :
  selected_when_playing (state w) ->
  Js.length (tracks (state w)) = 0 \/
  0 <= pick < Js.length (tracks (state w)) ->
  selected_when_playing (state (perform w (handleNext w pick))).
Proof.
  intros [Hidle Hrange] Hpick. open_world w. unfold perform, handleNext.
  simpl. destruct (Z.eqb_spec (Js.length tr) 0) as [? | Hne]; simpl;
    [settle |].
  destruct Hpick as [? | Hpick]; [contradiction |].
  destruct sh; simpl.
  - assert (0 < Js.length tr) as Hn by lia.
    destruct (@adjust_in_range _ pick ci Hn Hpick) as [F _]. settle.
  - destruct ci as [c |]; simpl; [| settle].
    specialize (Hrange c eq_refl).
    decide_tests; [destruct rm; settle | settle].
Qed.

Lemma handlePrev_keeps (w : World) (pick : Z) :
  selected_when_playing (state w) ->
  Js.length (tracks (state w)) = 0 \/
  0 <= pick < Js.length (tracks (state w)) ->
  selected_when_playing (state (perform w (handlePrev w pick))).
Proof.
  intros [Hidle Hrange] Hpick. open_world w. unfold perform, handlePrev.
  simpl. destruct (Z.eqb_spec (Js.length tr) 0) as [? | Hne]; simpl;
    [settle |].
  destruct Hpick as [? | Hpick]; [contradiction |].
  destruct (past_five_seconds ar); simpl; [settle |].
  destruct sh; simpl.
  - assert (0 < Js.length tr) as Hn by lia.
    destruct (@adjust_in_range _ pick ci Hn Hpick) as [_ B]. settle.
  - destruct ci as [c |]; simpl; [| settle].
    specialize (Hrange c eq_refl).
    decide_tests; [destruct rm; settle | settle].
Qed.

Lemma handleEnded_keeps (w : World) (pick : Z) :
  selected_when_playing (state w) ->
  Js.length (tracks (state w)) = 0 \/
  0 <= pick < Js.length (tracks (state w)) ->
  selected_when_playing (state (perform w (handleEnded w pick))).
Proof.
  intros Hinv Hpick. unfold handleEnded.
  destruct (repeatMode (state w)) eqn:Hrm;
    try (now apply handleNext_keeps).
  destruct Hinv as [Hidle Hrange]. open_world w. unfold perform.
  destruct ar; simpl; settle.
Qed.

Lemma handleRemove_keeps (w : World) (index : Z) (deleted : Settled unit) :
  selected_when_playing (state w) ->
  selected_when_playing
    (state (perform w (handleRemove api w index deleted))).
Proof.
  intros [Hidle Hrange]. unfold perform, handleRemove.
  destruct (Js.get (tracks (state w)) index) as [track |] eqn:Hget;
    [| now split].
  assert (Hin : 0 <= index < Js.length (tracks (state w)))
    by (apply get_in_range; now exists track).
  pose proof (@without_length index (tracks (state w)) Hin) as Hsize.
  open_world w.
  destruct (Js.truthy api); simpl.
  - (* server mode *)
    destruct deleted as [[] | err]; simpl; [| settle].
    unfold Js.lt, Js.strictEq.
    destruct ci as [c |]; simpl.
    + specialize (Hrange c eq_refl). decide_tests; settle.
    + decide_tests; settle.
  - (* client-only mode *)
    destruct ci as [c |]; simpl; [| settle].
    specialize (Hrange c eq_refl). decide_tests; settle.
Qed.

Lemma newTracks_length (files : list File) :
  Js.length (newTracks files) = Js.length files.
Proof. unfold Js.length, newTracks. now rewrite List.length_map. Qed.

Lemma handleUpload_keeps (w : World) (files : list File)
    (response : Settled (list Track)) :
  selected_when_playing (state w) ->
  selected_when_playing
    (state (perform w (handleUpload api w files response))).
Proof.
  intros [Hidle Hrange]. unfold perform, handleUpload.
  destruct (Z.eqb_spec (Js.length files) 0) as [? | Hfiles]; [now split |].
  pose proof (length_nonneg files) as Hpos.
  pose proof (newTracks_length files) as Hnew.
  open_world w.
  destruct (Js.truthy api); simpl.
  - (* server mode *)
    destruct response as [added | err]; simpl; [| settle].
    pose proof (length_nonneg added) as Hadded.
    destruct ci as [c |]; simpl.
    + specialize (Hrange c eq_refl). settle. rewrite length_app. lia.
    + destruct (Z.ltb_spec 0 (Js.length added)); simpl; settle.
      rewrite length_app. pose proof (length_nonneg tr). lia.
  - (* client-only mode *)
    destruct ci as [c |]; simpl.
    + specialize (Hrange c eq_refl). settle. rewrite length_app. lia.
    + settle. rewrite length_app. pose proof (length_nonneg tr). lia.
Qed.

(** Every handler maintains the invariant. *)
Lemma step_keeps (w : World) (e : Event) :
  selected_when_playing (state w) -> deliverable w e ->
  selected_when_playing (state (step api w e)).
Proof.
  intros Hinv Hok. unfold step.
  destruct e; simpl in *;
    try (destruct Hinv as [Hidle Hrange]; open_world w; now split).
  - now apply handleUpload_keeps.
  - now apply handleRemove_keeps.
  - now apply handleSelect_keeps.
  - now apply handlePlayPause_keeps.
  - now apply handleNext_keeps.
  - now apply handlePrev_keeps.
  - now apply handleEnded_keeps.
  - destruct Hinv as [Hidle Hrange]. open_world w.
    unfold perform, update. simpl. destruct ar; simpl; now split.
Qed.

End Controller.

(** C7.  Every state the component as shipped (client-only mode) reaches
    from the initial one through the handlers satisfies the invariant: an
    empty library has [currentIndex] none and [isPlaying] false, and a
    [currentIndex] that is not none lies in [[0, length)]. *)
Theorem reachable_consistent (w : World) :
  reachable w -> consistent (state w).
Proof.
  intros Hreach. apply selected_when_playing_consistent.
  induction Hreach as [r | w e _ IH Hok].
  - split; simpl; [reflexivity | discriminate].
  - now apply step_keeps.
Qed.

Section Boundaries.

(** The base URL the component was built with. *)
Variable api : string.

(** ** The first upload (C8) *)

(** C8.  An upload of at least one file into an empty library with nothing
    selected: the library becomes the new tracks, [currentIndex] becomes 0
    and [isPlaying] is left as it was; in server mode the new tracks are
    those the server answered with.  [handleSelect] on a valid index, by
    contrast, sets [isPlaying] to true. *)
Theorem first_upload_selects_silently (w : World) (files : list File)
    (response : Settled (list Track)) :
  currentIndex (state w) = None ->
  tracks (state w) = [] ->
  files <> [] ->
  (Js.truthy api = false ->
   tracks (state (step api w (Upload files response))) = newTracks files /\
   currentIndex (state (step api w (Upload files response))) = Some 0 /\
   isPlaying (state (step api w (Upload files response)))
   = isPlaying (state w)) /\
  (forall added,
     Js.truthy api = true -> response = fulfilled added -> added <> [] ->
     tracks (state (step api w (Upload files response))) = added /\
     currentIndex (state (step api w (Upload files response))) = Some 0 /\
     isPlaying (state (step api w (Upload files response)))
     = isPlaying (state w)) /\
  (forall w1 index,
     0 <= index < Js.length (tracks (state w1)) ->
     currentIndex (state (step api w1 (Select index))) = Some index /\
     isPlaying (state (step api w1 (Select index))) = true).
Proof.
  intros Hci Htr Hfiles.
  assert (Hlen : (Js.length files =? 0) = false).
  { apply Z.eqb_neq. rewrite length_zero. exact Hfiles. }
  open_world w. subst ci tr.
  unfold step, handler, before, perform, handleUpload, handleSelect.
  simpl. rewrite Hlen. split; [| split].
  - intros ->. simpl. now repeat split.
  - intros added -> -> Hadded. simpl.
    assert ((0 <? Js.length added) = true) as ->.
    { apply Z.ltb_lt. pose proof (length_nonneg added).
      assert (Js.length added <> 0) by now rewrite length_zero.
      lia. }
    simpl. now repeat split.
  - intros w1 index Hindex. open_world w1.
    decide_tests; try lia. now split.
Qed.

(** ** Failures and invalid input (C9) *)

(** C9.  In server mode a rejected DELETE request is caught: [handleRemove]
    returns normally and no hook value changes, so the library,
    [currentIndex] and [isPlaying] are what they were, and so is the audio
    element.  [handleSelect] with an index outside [[0, length)] returns
    normally and leaves the whole component as it was. *)
Theorem failed_delete_bad_select_harmless (w : World) (index : Z)
    (err : string) :
  (Js.truthy api = true ->
   state (step api w (Remove index (rejected err))) = state w /\
   audioRef (step api w (Remove index (rejected err))) = audioRef w /\
   returns (handleRemove api w index (rejected err))) /\
  (index < 0 \/ Js.length (tracks (state w)) <= index ->
   step api w (Select index) = w /\ returns (handleSelect w index)).
Proof.
  unfold step, handler, before, perform, handleRemove, handleSelect, returns.
  split.
  - intros ->. destruct w as [s ar cl]. simpl.
    destruct (Js.get (tracks s) index); simpl.
    + split; [now destruct s |]. split; [reflexivity | now exists tt].
    + split; [reflexivity |]. split; [reflexivity | now exists tt].
  - intros Hout.
    assert ((index <? 0) || (index >=? Js.length (tracks (state w))) = true)
      as ->.
    { rewrite Z.geb_leb. apply orb_true_iff.
      destruct Hout; [left; now apply Z.ltb_lt | right; now apply Z.leb_le]. }
    simpl. split; [reflexivity | now exists tt].
Qed.

(** ** The volume button (C10) *)

Lemma gt_zero (v : Q) : (0 < v)%Q -> Js.gt v 0 = true.
Proof.
  intros Hv. unfold Js.gt. destruct (Qle_bool v 0) eqn:E; [| reflexivity].
  apply Qle_bool_iff in E. now apply Qlt_not_le in Hv.
Qed.

(** C10.  From a volume [v > 0] the volume button sets the volume to 0, and
    a second click sets it to 0.8, whatever [v] was: the two clicks give
    back [v] exactly when [v] is 0.8. *)
Theorem mute_forgets_volume (w : World) :
  (0 < volume (state w))%Q ->
  volume (state (step api w VolumeClick)) = 0%Q /\
  volume (state (step api (step api w VolumeClick) VolumeClick))
  = (8 # 10)%Q /\
  ((volume (state (step api (step api w VolumeClick) VolumeClick))
    == volume (state w))%Q <-> (volume (state w) == 8 # 10)%Q).
Proof.
  intros Hv. open_world w.
  unfold step, handler, before, perform, onClickVolume, mute_toggle. simpl.
  rewrite (gt_zero Hv). simpl. repeat split; intros H; now symmetry.
Qed.

End Boundaries.

(** * The theorems at work on sample libraries *)

(** The handlers only look at a mounted element's clock. *)
Lemma fresh_audio_early (r : option Audio) :
  r = fresh_audio ->
  forall audio, r = Some audio -> (audio_currentTime audio <= 5)%Q.
Proof. intros -> audio [= <-]. simpl. unfold Qle. simpl. lia. Defined.

Lemma idle_stays_idle_witness :
  currentIndex (state idle_in_order) = None /\
  state (step API_BASE idle_in_order (Next 0)) = state idle_in_order /\
  state (step API_BASE idle_in_order (Previous 0)) = state idle_in_order /\
  state (step API_BASE idle_in_order (Ended 0)) = state idle_in_order.
Proof.
  destruct (@idle_stays_idle API_BASE idle_in_order 0 eq_refl)
    as [N [P [E _]]].
  split; [reflexivity |].
  split; [apply N | split; [apply P | apply E]]; left; reflexivity.
Defined.

Lemma shuffle_never_repeats_witness :
  (exists next,
      currentIndex (state (step API_BASE shuffling_b (Next 1))) = Some next /\
      next = 2) /\
  (exists prev,
      currentIndex (state (step API_BASE shuffling_b (Previous 1))) = Some prev /\
      prev = 0).
Proof.
  assert (Hn : 1 < Js.length (tracks (state shuffling_b))) by reflexivity.
  assert (Hpick : 0 <= 1 < Js.length (tracks (state shuffling_b)))
    by (split; [discriminate | reflexivity]).
  destruct (@shuffle_never_repeats API_BASE shuffling_b 1 eq_refl Hn Hpick)
    as [F B].
  split.
  - destruct (F (Next 1) (or_introl eq_refl)) as [next [E [_ [_ [_ [C _]]]]]].
    exists next. split; [exact E | now rewrite (C eq_refl)].
  - destruct (B eq_refl) as [prev [E [_ [_ [_ [C _]]]]]].
    exists prev. split; [exact E | now rewrite (C eq_refl)].
Defined.

Lemma off_stops_at_both_ends_witness :
  (isPlaying (state (step API_BASE playing_c (Next 0))) = false /\
   currentIndex (state (step API_BASE playing_c (Next 0))) = Some 2) /\
  (isPlaying (state (step API_BASE playing_a (Previous 0))) = false /\
   currentIndex (state (step API_BASE playing_a (Previous 0))) = Some 0).
Proof.
  split.
  - apply (@off_stops_at_both_ends API_BASE playing_c 0);
      reflexivity.
  - apply (@off_stops_at_both_ends API_BASE playing_a 0);
      try reflexivity.
    now apply fresh_audio_early.
Defined.

Lemma all_cycles_forever_witness :
  currentIndex (state (step API_BASE looping_a (Next 0))) = Some 1 /\
  currentIndex (state (run API_BASE looping_a [Next 0; Next 0])) = Some 0 /\
  currentIndex (state (step API_BASE looping_a (Previous 0))) = Some 1 /\
  isPlaying (state (step API_BASE looping_a (Previous 0))) = true.
Proof.
  assert (Hi : 0 <= 0 < Js.length (tracks (state looping_a)))
    by (split; [discriminate | reflexivity]).
  destruct (@all_cycles_forever API_BASE looping_a 0 eq_refl eq_refl eq_refl Hi)
    as [One [_ [Turn [_ Wrap]]]].
  split; [exact (proj1 (One 0)) |].
  split; [exact (Turn [0; 0] eq_refl) |].
  apply (Wrap eq_refl). now apply fresh_audio_early.
Defined.

Lemma one_restarts_in_place_witness :
  state (step API_BASE repeating_a (Ended 0)) = state repeating_a /\
  calls (step API_BASE repeating_a (Ended 0)) = [seek 0; play].
Proof.
  destruct (@one_restarts_in_place API_BASE repeating_a 0 eq_refl)
    as [Frame [_ [Calls _]]].
  split; [exact Frame | exact (proj1 (Calls _ eq_refl))].
Defined.

Lemma remove_rebases_index_witness :
  (tracks (state (step API_BASE playing_b (Remove 0 (fulfilled tt))))
   = [song_b; song_c] /\
   currentIndex (state (step API_BASE playing_b (Remove 0 (fulfilled tt))))
   = Some 0) /\
  (tracks (state (step server playing_b (Remove 1 (fulfilled tt))))
   = [song_a; song_c] /\
   currentIndex (state (step server playing_b (Remove 1 (fulfilled tt))))
   = None) /\
  currentIndex (state (step API_BASE playing_b (Remove 2 (fulfilled tt))))
  = Some 1.
Proof.
  split; [| split].
  - destruct (@remove_rebases_index API_BASE playing_b 1 0 (fulfilled tt)
                eq_refl (conj (Z.le_refl 0) eq_refl) (or_introl eq_refl))
      as [L [_ [Before _]]].
    split; [exact L | exact (proj1 (Before eq_refl))].
  - destruct (@remove_rebases_index server playing_b 1 1 (fulfilled tt)
                eq_refl (conj (Zle_0_pos 1) eq_refl) (or_intror eq_refl))
      as [L [_ [_ [Same _]]]].
    split; [exact L | exact (proj1 (Same eq_refl))].
  - destruct (@remove_rebases_index API_BASE playing_b 1 2 (fulfilled tt)
                eq_refl (conj (Zle_0_pos 2) eq_refl) (or_introl eq_refl))
      as [_ [_ [_ [_ After]]]].
    exact (proj1 (After eq_refl)).
Defined.

Lemma reachable_consistent_witness :
  consistent (state (step API_BASE mounted
                          (Upload one_file (rejected "unused")))) /\
  consistent (state (run API_BASE mounted
                         [Upload one_file (rejected "unused");
                          Select 0; ShuffleClick; Next 0;
                          Remove 0 (fulfilled tt)])).
Proof.
  split.
  - apply reachable_consistent.
    apply reach_step; [apply reach_init | exact I].
  - apply reachable_consistent. unfold run. simpl fold_left.
    repeat (apply reach_step;
            [| first [exact I | right; split; [discriminate | reflexivity]]]).
    apply reach_init.
Defined.

Lemma first_upload_selects_silently_witness :
  tracks (state (step API_BASE mounted (Upload one_file (rejected "unused"))))
  = [mkTrack "1700000000000-k3x9qz" "song" "blob:1"] /\
  currentIndex (state (step API_BASE mounted
                            (Upload one_file (rejected "unused")))) = Some 0 /\
  isPlaying (state (step API_BASE mounted
                         (Upload one_file (rejected "unused")))) = false /\
  isPlaying (state (step API_BASE playing_b (Select 2))) = true.
Proof.
  assert (Hfiles : one_file <> []) by discriminate.
  destruct (@first_upload_selects_silently API_BASE mounted one_file
              (rejected "unused") eq_refl eq_refl Hfiles)
    as [Client [_ Sel]].
  destruct (Client eq_refl) as [L [C P]].
  split; [exact L | split; [exact C | split; [exact P |]]].
  apply (Sel playing_b 2). split; [discriminate | reflexivity].
Defined.

Lemma failed_delete_bad_select_harmless_witness :
  state (step server playing_b (Remove 1 (rejected "NetworkError")))
  = state playing_b /\
  step server playing_b (Select 3) = playing_b.
Proof.
  destruct (@failed_delete_bad_select_harmless server playing_b 1
              "NetworkError") as [Del _].
  destruct (@failed_delete_bad_select_harmless server playing_b 3
              "NetworkError") as [_ Sel].
  split; [exact (proj1 (Del eq_refl)) |].
  apply Sel. right. discriminate.
Defined.

Lemma mute_forgets_volume_witness :
  volume (state (step API_BASE quiet VolumeClick)) = 0%Q /\
  volume (state (step API_BASE (step API_BASE quiet VolumeClick) VolumeClick))
  = (8 # 10)%Q.
Proof.
  assert (Hv : (0 < volume (state quiet))%Q) by reflexivity.
  destruct (@mute_forgets_volume API_BASE quiet Hv) as [Muted [Back _]].
  split; [exact Muted | exact Back].
Defined.

(** * Further properties of the handlers *)

(** ** Titles *)

Lemma dotless_app_dot (a b : string) :
  Js.dotless (a ++ String "." b)%string = false.
Proof.
  induction a as [| c a IH]; simpl.
  - reflexivity.
  - rewrite IH. apply andb_false_r.
Qed.

(** X1.  The title of [base.ext] is [base], for an extension [ext] that is
    not empty and holds no dot: only the last extension goes, and a name that
    is nothing but an extension ([.mp3]) gets the empty title. *)
Theorem strip_extension_base (base ext : string) :
  ext <> "" -> Js.dotless ext = true ->
  Js.strip_extension (base ++ String "." ext)%string = base.
Proof.
  intros Hext Hdot. induction base as [| c base IH]; simpl.
  - rewrite Hdot. destruct ext; [contradiction | reflexivity].
  - rewrite dotless_app_dot, andb_false_r. now rewrite IH.
Qed.

Lemma strip_extension_base_witness :
  Js.strip_extension "live.set.flac" = "live.set" /\
  Js.strip_extension ".mp3" = "".
Proof.
  split.
  - apply (@strip_extension_base "live.set" "flac");
      [discriminate | reflexivity].
  - apply (@strip_extension_base "" "mp3"); [discriminate | reflexivity].
Defined.

(** X2.  A name without a dot keeps all of it as title, and so does a name
    that ends in a dot. *)
Theorem strip_extension_keeps (s : string) :
  Js.dotless s = true \/ (exists base, s = (base ++ ".")%string) ->
  Js.strip_extension s = s.
Proof.
  intros [Hdot | [base ->]].
  - induction s as [| c s IH]; simpl in *; [reflexivity |].
    apply andb_true_iff in Hdot as [Hc Hs].
    apply negb_true_iff in Hc. rewrite Hc. simpl. now rewrite IH.
  - induction base as [| c base IH]; simpl.
    + reflexivity.
    + rewrite dotless_app_dot, andb_false_r. now rewrite IH.
Qed.

Lemma strip_extension_keeps_witness :
  Js.strip_extension "README" = "README" /\
  Js.strip_extension "track01." = "track01.".
Proof.
  split.
  - apply strip_extension_keeps. left. reflexivity.
  - apply strip_extension_keeps. right. now exists "track01".
Defined.

(** ** Uploads *)

(** X3.  An upload only appends: the library it finds is a prefix of the one
    it leaves, [isPlaying] and an existing selection are untouched, and in
    client-only mode the library grows by the number of files. *)
Theorem upload_only_appends (api : string) (w : World) (files : list File)
    (response : Settled (list Track)) :
  (exists added,
      tracks (state (step api w (Upload files response)))
      = tracks (state w) ++ added) /\
  isPlaying (state (step api w (Upload files response)))
  = isPlaying (state w) /\
  (forall i, currentIndex (state w) = Some i ->
             currentIndex (state (step api w (Upload files response)))
             = Some i) /\
  (Js.truthy api = false ->
   Js.length (tracks (state (step api w (Upload files response))))
   = Js.length (tracks (state w)) + Js.length files).
Proof.
  open_world w.
  unfold step, handler, before, perform, handleUpload. simpl.
  destruct (Z.eqb_spec (Js.length files) 0) as [Hnone | Hsome]; simpl.
  - split; [exists []; now rewrite app_nil_r |].
    split; [reflexivity |]. split; [easy |]. lia.
  - destruct (Js.truthy api); simpl.
    + destruct response as [added | err]; simpl.
      * split; [exists added; now destruct ci; [| destruct (0 <? _)] |].
        destruct ci; [| destruct (0 <? Js.length added)]; simpl;
          (split; [reflexivity |]); (split; [easy | discriminate]).
      * split; [exists []; now rewrite app_nil_r |].
        split; [reflexivity |]. split; [easy | discriminate].
    + split; [exists (newTracks files); now destruct ci |].
      destruct ci; simpl; (split; [reflexivity |]);
        (split; [easy |]); intros _;
        now rewrite length_app, newTracks_length.
Qed.

Lemma upload_only_appends_witness :
  Js.length (tracks (state (step API_BASE playing_b
                                 (Upload one_file (rejected "unused")))))
  = 4 /\
  currentIndex (state (step API_BASE playing_b
                            (Upload one_file (rejected "unused"))))
  = Some 1.
Proof.
  destruct (@upload_only_appends API_BASE playing_b one_file
              (rejected "unused")) as [_ [_ [Kept Grown]]].
  split; [exact (Grown eq_refl) | exact (Kept 1 eq_refl)].
Defined.

(** X4.  The handler tests [currentIndex === null] only, not whether the
    library was empty: an upload of at least one file while nothing is
    selected selects index 0 without playing, and with tracks already in the
    library index 0 is the first of those, not the first new one. *)
Theorem upload_selects_first_of_library (w : World) (files : list File)
    (response : Settled (list Track)) (first : Track) :
  currentIndex (state w) = None ->
  files <> [] ->
  Js.get (tracks (state w)) 0 = Some first ->
  currentIndex (state (step API_BASE w (Upload files response))) = Some 0 /\
  current_track (state (step API_BASE w (Upload files response)))
  = Some first /\
  isPlaying (state (step API_BASE w (Upload files response)))
  = isPlaying (state w).
Proof.
  intros Hci Hfiles Hfirst.
  assert (Hlen : (Js.length files =? 0) = false).
  { apply Z.eqb_neq. now rewrite length_zero. }
  open_world w. subst ci.
  unfold step, handler, before, perform, handleUpload, current_track. simpl.
  rewrite Hlen. simpl. repeat split.
  destruct tr as [| t tr]; [discriminate |]. exact Hfirst.
Qed.

Lemma upload_selects_first_of_library_witness :
  current_track (state (step API_BASE idle_in_order
                             (Upload one_file (rejected "unused"))))
  = Some song_a.
Proof.
  assert (Hfiles : one_file <> []) by discriminate.
  exact (proj1 (proj2 (@upload_selects_first_of_library idle_in_order one_file
                         (rejected "unused") song_a eq_refl Hfiles eq_refl))).
Defined.

(** X5.  A failed upload in server mode changes no hook value; the handler
    logs the failure, still resets the file input, and returns normally.  An
    upload of no file does nothing at all, in either mode: the input is not
    even reset. *)
Theorem upload_failure_and_empty_upload (api : string) (w : World)
    (files : list File) (response : Settled (list Track)) (err : string) :
  (Js.truthy api = true -> files <> [] ->
   state (step api w (Upload files (rejected err))) = state w /\
   calls (step api w (Upload files (rejected err)))
   = calls w ++ [console_error "Upload failed"; reset_input] /\
   returns (handleUpload api w files (rejected err))) /\
  step api w (Upload [] response) = w.
Proof.
  split; [| reflexivity].
  intros Hapi Hfiles.
  assert (Hlen : (Js.length files =? 0) = false).
  { apply Z.eqb_neq. now rewrite length_zero. }
  unfold step, handler, before, perform, handleUpload, returns.
  rewrite Hlen, Hapi. destruct w as [s ar cl]. simpl.
  split; [now destruct s |].
  split; [now rewrite <- app_assoc | now exists tt].
Qed.

Lemma upload_failure_and_empty_upload_witness :
  state (step server playing_b (Upload one_file (rejected "NetworkError")))
  = state playing_b /\
  calls (step server playing_b (Upload one_file (rejected "NetworkError")))
  = [console_error "Upload failed"; reset_input].
Proof.
  assert (Hfiles : one_file <> []) by discriminate.
  destruct (@upload_failure_and_empty_upload server playing_b one_file
              (rejected "unused") "NetworkError") as [Failed _].
  destruct (Failed eq_refl Hfiles) as [S [C _]].
  split; [exact S | exact C].
Defined.

(** ** Removals *)

Lemma nth_error_filter_from (index : Z) (a : list Track) :
  forall base k, base <= index -> 0 <= k ->
    nth_error (Js.filter_from (fun (_ : Track) i => negb (i =? index)) base a)
              (Z.to_nat k)
    = nth_error a (Z.to_nat (if base + k <? index then k else k + 1)).
Proof.
  induction a as [| x r IH]; intros base k Hbase Hk.
  - simpl. now rewrite !nth_error_nil.
  - simpl. destruct (Z.eqb_spec base index) as [-> | Hne]; simpl.
    + rewrite filter_from_beyond by lia.
      destruct (Z.ltb_spec (index + k) index); [lia |].
      replace (Z.to_nat (k + 1)) with (S (Z.to_nat k)) by lia. reflexivity.
    + destruct (Z.eq_dec k 0) as [-> | Hpos].
      * destruct (Z.ltb_spec (base + 0) index); [reflexivity | lia].
      * replace (Z.to_nat k) with (S (Z.to_nat (k - 1))) by lia. simpl.
        rewrite IH by lia.
        destruct (Z.ltb_spec (base + 1 + (k - 1)) index),
                 (Z.ltb_spec (base + k) index); try lia.
        -- replace (Z.to_nat k) with (S (Z.to_nat (k - 1))) by lia.
           reflexivity.
        -- replace (k - 1 + 1) with k by lia.
           replace (Z.to_nat (k + 1)) with (S (Z.to_nat k)) by lia.
           reflexivity.
Qed.

(** Positions before the removed one keep their track, later ones take the
    track of their successor. *)
Lemma get_without (a : list Track) (index k : Z) :
  0 <= index ->
  Js.get (without index a) k
  = if k <? 0 then None else Js.get a (if k <? index then k else k + 1).
Proof.
  intros Hindex. unfold Js.get at 1.
  destruct (Z.ltb_spec k 0) as [Hneg | Hk]; [reflexivity |].
  unfold without, Js.filter.
  rewrite nth_error_filter_from by lia. simpl.
  unfold Js.get. destruct (k <? index);
    [destruct (Z.ltb_spec k 0) | destruct (Z.ltb_spec (k + 1) 0)];
    try lia; reflexivity.
Qed.

(** X6.  Removing any other track than the current one never changes which
    track is current: the index is rebased so that [tracks[currentIndex]] is
    the same track afterwards, and [isPlaying] is left alone. *)
Theorem remove_keeps_current_track (api : string) (w : World) (i j : Z)
    (deleted : Settled unit) :
  currentIndex (state w) = Some i ->
  0 <= j < Js.length (tracks (state w)) ->
  j <> i ->
  Js.truthy api = false \/ deleted = fulfilled tt ->
  current_track (state (step api w (Remove j deleted)))
  = current_track (state w) /\
  isPlaying (state (step api w (Remove j deleted))) = isPlaying (state w).
Proof.
  intros Hci Hj Hne Hmode.
  destruct (proj1 (get_in_range (tracks (state w)) j) Hj) as [track Hget].
  pose proof (@get_without (tracks (state w)) j) as Hrebase.
  open_world w. subst ci.
  assert (E : state (step api (mkWorld (mkState tr (Some i) ip sh rm vol ct du)
                                       ar cl) (Remove j deleted))
              = mkState (without j tr) (if j <? i then Some (i - 1) else Some i)
                        ip sh rm vol ct du).
  { unfold step, handler, before, perform, handleRemove. simpl.
    rewrite Hget.
    destruct (Js.truthy api) eqn:Hapi; simpl.
    - destruct Hmode as [? | ->]; [discriminate |]. simpl.
      unfold Js.lt. simpl. decide_tests; try reflexivity; lia.
    - decide_tests; try reflexivity; lia. }
  rewrite E. unfold current_track. simpl. split; [| reflexivity].
  destruct (Z.ltb_spec j i) as [Hlt | Hge]; simpl.
  - rewrite Hrebase by lia.
    destruct (Z.ltb_spec (i - 1) 0), (Z.ltb_spec (i - 1) j); try lia.
    now replace (i - 1 + 1) with i by lia.
  - rewrite Hrebase by lia.
    destruct (Z.ltb_spec i 0) as [Hneg | Hpos].
    + unfold Js.get. now destruct (Z.ltb_spec i 0); [| lia].
    + now destruct (Z.ltb_spec i j); [| lia].
Qed.

Lemma remove_keeps_current_track_witness :
  current_track (state (step API_BASE playing_b (Remove 0 (fulfilled tt))))
  = Some song_b /\
  current_track (state (step server playing_b (Remove 2 (fulfilled tt))))
  = Some song_b.
Proof.
  split.
  - exact (proj1 (@remove_keeps_current_track API_BASE playing_b 1 0
                    (fulfilled tt) eq_refl (conj (Z.le_refl 0) eq_refl)
                    ltac:(discriminate) (or_introl eq_refl))).
  - exact (proj1 (@remove_keeps_current_track server playing_b 1 2
                    (fulfilled tt) eq_refl (conj (Zle_0_pos 2) eq_refl)
                    ltac:(discriminate) (or_intror eq_refl))).
Defined.

(** X7.  [handleRemove] with an index that has no track does nothing, in
    either mode and whatever the server would have answered; with nothing
    selected it removes the track at a valid index and leaves [currentIndex]
    none and [isPlaying] as it was. *)
Theorem remove_without_track_or_selection (api : string) (w : World)
    (j : Z) (deleted : Settled unit) :
  (j < 0 \/ Js.length (tracks (state w)) <= j ->
   step api w (Remove j deleted) = w /\
   returns (handleRemove api w j deleted)) /\
  (currentIndex (state w) = None ->
   0 <= j < Js.length (tracks (state w)) ->
   Js.truthy api = false \/ deleted = fulfilled tt ->
   state (step api w (Remove j deleted))
   = mkState (firstn (Z.to_nat j) (tracks (state w))
              ++ skipn (S (Z.to_nat j)) (tracks (state w)))
             None (isPlaying (state w)) (shuffle (state w))
             (repeatMode (state w)) (volume (state w))
             (currentTime (state w)) (duration (state w))).
Proof.
  split.
  - intros Hout.
    assert (Hget : Js.get (tracks (state w)) j = None).
    { destruct (Js.get (tracks (state w)) j) as [t |] eqn:E; [| reflexivity].
      assert (0 <= j < Js.length (tracks (state w)))
        by (apply get_in_range; now exists t).
      lia. }
    unfold step, handler, before, perform, handleRemove, returns.
    rewrite Hget. simpl. split; [reflexivity | now exists tt].
  - intros Hci Hj Hmode.
    destruct (proj1 (get_in_range (tracks (state w)) j) Hj) as [track Hget].
    pose proof (@without_spec j (tracks (state w)) (proj1 Hj)) as Hlist.
    open_world w. subst ci. rewrite <- Hlist.
    unfold step, handler, before, perform, handleRemove. simpl.
    rewrite Hget. destruct (Js.truthy api) eqn:Hapi; simpl.
    + destruct Hmode as [? | ->]; [discriminate |]. simpl.
      unfold Js.lt. simpl. decide_tests; try reflexivity; lia.
    + reflexivity.
Qed.

Lemma remove_without_track_or_selection_witness :
  step server playing_b (Remove 3 (rejected "unused")) = playing_b /\
  tracks (state (step API_BASE idle_in_order (Remove 0 (fulfilled tt))))
  = [song_b] /\
  currentIndex (state (step API_BASE idle_in_order (Remove 0 (fulfilled tt))))
  = None.
Proof.
  destruct (@remove_without_track_or_selection server playing_b 3
              (rejected "unused")) as [Out _].
  destruct (@remove_without_track_or_selection API_BASE idle_in_order 0
              (fulfilled tt)) as [_ Idle].
  assert (Hout : 3 < 0 \/ Js.length (tracks (state playing_b)) <= 3)
    by (right; discriminate).
  split; [exact (proj1 (Out Hout)) |].
  rewrite (Idle eq_refl (conj (Z.le_refl 0) eq_refl) (or_introl eq_refl)).
  split; reflexivity.
Defined.

(** ** Play, pause and the empty library *)

(** X8.  The play button.  With a track selected it flips [isPlaying] and
    nothing else, so two presses restore every hook value; with nothing
    selected it selects index 0 and plays when the library has a track. *)
Theorem play_pause_toggles (api : string) (w : World) :
  (forall i, currentIndex (state w) = Some i ->
     isPlaying (state (step api w PlayPause)) = negb (isPlaying (state w)) /\
     currentIndex (state (step api w PlayPause)) = Some i /\
     state (run api w [PlayPause; PlayPause]) = state w) /\
  (currentIndex (state w) = None -> tracks (state w) <> [] ->
     currentIndex (state (step api w PlayPause)) = Some 0 /\
     isPlaying (state (step api w PlayPause)) = true /\
     tracks (state (step api w PlayPause)) = tracks (state w)).
Proof.
  open_world w. unfold run, step, handler, before, perform, handlePlayPause.
  simpl. split.
  - intros i ->. simpl. now rewrite negb_involutive.
  - intros -> Htr.
    assert (0 < Js.length tr).
    { pose proof (length_nonneg tr).
      assert (Js.length tr <> 0) by now rewrite length_zero. lia. }
    decide_tests; [now repeat split | lia].
Qed.

Lemma play_pause_toggles_witness :
  state (run API_BASE playing_b [PlayPause; PlayPause]) = state playing_b /\
  currentIndex (state (step API_BASE idle_in_order PlayPause)) = Some 0.
Proof.
  destruct (@play_pause_toggles API_BASE playing_b) as [Sel _].
  destruct (@play_pause_toggles API_BASE idle_in_order) as [_ Idle].
  split.
  - exact (proj2 (proj2 (Sel 1 eq_refl))).
  - exact (proj1 (Idle eq_refl ltac:(discriminate))).
Defined.

(** X9.  On an empty library with nothing selected, the play button, Next,
    Previous, a click on any row index and a removal at any index leave the
    component exactly as it was: no hook value changes and no call is made.
    The same holds for a track's natural end outside repeat-one. *)
Theorem empty_library_is_inert (api : string) (w : World) (e : Event) :
  tracks (state w) = [] ->
  currentIndex (state w) = None ->
  match e with
  | PlayPause | Next _ | Previous _ | Select _ | Remove _ _ => True
  | Ended _ => repeatMode (state w) <> one
  | _ => False
  end ->
  step api w e = w.
Proof.
  intros Htr Hci He. open_world w. subst tr ci.
  unfold step, handler, before, perform, handleRemove, handleSelect,
    handleEnded.
  destruct e; simpl in *; try contradiction; try reflexivity.
  - unfold Js.get. destruct (index <? 0); [reflexivity |].
    now rewrite nth_error_nil.
  - change (Js.length (@nil Track)) with 0.
    destruct (Z.ltb_spec index 0); simpl; [reflexivity |].
    rewrite Z.geb_leb. destruct (Z.leb_spec 0 index); [reflexivity | lia].
  - now destruct rm.
Qed.

Lemma empty_library_is_inert_witness :
  step API_BASE mounted PlayPause = mounted /\
  step API_BASE mounted (Previous 0) = mounted /\
  step server mounted (Remove 0 (fulfilled tt)) = mounted /\
  step API_BASE mounted (Ended 0) = mounted.
Proof.
  split; [| split; [| split]].
  - exact (@empty_library_is_inert API_BASE mounted PlayPause
             eq_refl eq_refl I).
  - exact (@empty_library_is_inert API_BASE mounted (Previous 0)
             eq_refl eq_refl I).
  - exact (@empty_library_is_inert server mounted (Remove 0 (fulfilled tt))
             eq_refl eq_refl I).
  - exact (@empty_library_is_inert API_BASE mounted (Ended 0)
             eq_refl eq_refl ltac:(discriminate)).
Defined.

(** ** Next and Previous *)

(** One step in order that does not stop: forwards, and backwards. *)
Lemma next_in_order (api : string) (w : World) (i p : Z) :
  shuffle (state w) = false ->
  currentIndex (state w) = Some i ->
  0 <= i < Js.length (tracks (state w)) ->
  i + 1 < Js.length (tracks (state w)) \/ repeatMode (state w) = all ->
  state (step api w (Next p))
  = mkState (tracks (state w))
            (Some (if i + 1 <? Js.length (tracks (state w)) then i + 1 else 0))
            true false (repeatMode (state w)) (volume (state w))
            (currentTime (state w)) (duration (state w)) /\
  audioRef (step api w (Next p)) = audioRef w.
Proof.
  intros Hsh Hci Hi Hcase. open_world w. subst sh ci.
  assert (Hlen : (Js.length tr =? 0) = false) by (apply Z.eqb_neq; lia).
  unfold step, handler, before, perform, handleNext. simpl. rewrite Hlen.
  rewrite Z.geb_leb.
  destruct (Z.leb_spec (Js.length tr) (i + 1)) as [Hlast | Hmid],
           (Z.ltb_spec (i + 1) (Js.length tr)); try lia; simpl.
  - destruct Hcase as [? | ->]; [lia |]. now split.
  - now split.
Qed.

Lemma previous_in_order (api : string) (w : World) (i q : Z) :
  shuffle (state w) = false ->
  currentIndex (state w) = Some i ->
  0 <= i < Js.length (tracks (state w)) ->
  past_five_seconds (audioRef w) = false ->
  0 < i \/ repeatMode (state w) = all ->
  state (step api w (Previous q))
  = mkState (tracks (state w))
            (Some (if 0 <? i then i - 1 else Js.length (tracks (state w)) - 1))
            true false (repeatMode (state w)) (volume (state w))
            (currentTime (state w)) (duration (state w)) /\
  audioRef (step api w (Previous q)) = audioRef w.
Proof.
  intros Hsh Hci Hi Hfive Hcase. open_world w. subst sh ci.
  assert (Hlen : (Js.length tr =? 0) = false) by (apply Z.eqb_neq; lia).
  unfold step, handler, before, perform, handlePrev. simpl.
  rewrite Hlen, Hfive.
  destruct (Z.ltb_spec (i - 1) 0) as [Hfirst | Hmid],
           (Z.ltb_spec 0 i); try lia; simpl.
  - destruct Hcase as [? | ->]; [lia |]. now split.
  - now split.
Qed.

(** X10.  In order (shuffle off), at most five seconds into the track: Next
    followed by Previous comes back to the index it started from, and so does
    Previous followed by Next, with [isPlaying] true and the library
    untouched, as long as the first step does not run off the end of the
    library, or under repeat-all, where it wraps. *)
Theorem next_previous_round_trip (api : string) (w : World) (i p q : Z) :
  shuffle (state w) = false ->
  currentIndex (state w) = Some i ->
  0 <= i < Js.length (tracks (state w)) ->
  (forall audio, audioRef w = Some audio -> (audio_currentTime audio <= 5)%Q) ->
  (i + 1 < Js.length (tracks (state w)) \/ repeatMode (state w) = all ->
   currentIndex (state (run api w [Next p; Previous q])) = Some i /\
   isPlaying (state (run api w [Next p; Previous q])) = true /\
   tracks (state (run api w [Next p; Previous q])) = tracks (state w)) /\
  (0 < i \/ repeatMode (state w) = all ->
   currentIndex (state (run api w [Previous q; Next p])) = Some i /\
   isPlaying (state (run api w [Previous q; Next p])) = true /\
   tracks (state (run api w [Previous q; Next p])) = tracks (state w)).
Proof.
  intros Hsh Hci Hi Hfive. apply past_five_seconds_false in Hfive.
  unfold run. simpl fold_left. split; intros Hcase.
  - destruct (@next_in_order api w i p Hsh Hci Hi Hcase) as [S1 R1].
    set (n := Js.length (tracks (state w))) in *.
    set (w1 := step api w (Next p)) in *.
    assert (Hi1 : 0 <= (if i + 1 <? n then i + 1 else 0)
                  < Js.length (tracks (state w1))).
    { rewrite S1. simpl. fold n. destruct (Z.ltb_spec (i + 1) n); lia. }
    assert (Hcase1 : 0 < (if i + 1 <? n then i + 1 else 0)
                     \/ repeatMode (state w1) = all).
    { rewrite S1. simpl.
      destruct (Z.ltb_spec (i + 1) n); [left; lia |].
      destruct Hcase; [lia | now right]. }
    destruct (@previous_in_order api w1 _ q
                ltac:(now rewrite S1) ltac:(now rewrite S1) Hi1
                ltac:(now rewrite R1) Hcase1) as [S2 _].
    rewrite S2, S1. simpl. fold n. repeat split. f_equal.
    destruct (Z.ltb_spec (i + 1) n).
    + destruct (Z.ltb_spec 0 (i + 1)); lia.
    + simpl. lia.
  - destruct (@previous_in_order api w i q Hsh Hci Hi Hfive Hcase) as [S1 R1].
    set (n := Js.length (tracks (state w))) in *.
    set (w1 := step api w (Previous q)) in *.
    assert (Hi1 : 0 <= (if 0 <? i then i - 1 else n - 1)
                  < Js.length (tracks (state w1))).
    { rewrite S1. simpl. fold n. destruct (Z.ltb_spec 0 i); lia. }
    assert (Hcase1 : (if 0 <? i then i - 1 else n - 1) + 1
                     < Js.length (tracks (state w1))
                     \/ repeatMode (state w1) = all).
    { rewrite S1. simpl. fold n.
      destruct (Z.ltb_spec 0 i); [left; lia |].
      destruct Hcase; [lia | now right]. }
    destruct (@next_in_order api w1 _ p
                ltac:(now rewrite S1) ltac:(now rewrite S1) Hi1 Hcase1)
      as [S2 _].
    rewrite S2, S1. simpl. fold n. repeat split. f_equal.
    destruct (Z.ltb_spec 0 i).
    + destruct (Z.ltb_spec (i - 1 + 1) n); lia.
    + destruct (Z.ltb_spec (n - 1 + 1) n); lia.
Qed.

Lemma next_previous_round_trip_witness :
  currentIndex (state (run API_BASE playing_b [Next 0; Previous 0])) = Some 1 /\
  currentIndex (state (run API_BASE looping_a [Previous 0; Next 0])) = Some 0.
Proof.
  destruct (@next_previous_round_trip API_BASE playing_b 1 0 0 eq_refl eq_refl
              (conj (Zle_0_pos 1) eq_refl)
              (@fresh_audio_early _ eq_refl)) as [There _].
  destruct (@next_previous_round_trip API_BASE looping_a 0 0 0 eq_refl eq_refl
              (conj (Z.le_refl 0) eq_refl)
              (@fresh_audio_early _ eq_refl)) as [_ Return_trip].
  split.
  - exact (proj1 (There (or_introl eq_refl))).
  - exact (proj1 (Return_trip (or_intror eq_refl))).
Defined.

(** X11.  More than five seconds into a track of a non-empty library,
    Previous only rewinds: the element's clock is set to 0 through one seek,
    and no hook value changes, whatever the shuffle and repeat settings and
    the selection.  At five seconds or less it never seeks. *)
Theorem previous_rewinds_after_five (api : string) (w : World) (pick : Z)
    (audio : Audio) :
  tracks (state w) <> [] ->
  audioRef w = Some audio ->
  ((5 < audio_currentTime audio)%Q ->
   step api w (Previous pick)
   = mkWorld (state w) (Some (mkAudio 0 (audio_duration audio)))
             (calls w ++ [seek 0])) /\
  ((audio_currentTime audio <= 5)%Q ->
   audioRef (step api w (Previous pick)) = audioRef w /\
   calls (step api w (Previous pick)) = calls w).
Proof.
  intros Htr Href.
  assert (Hlen : (Js.length (tracks (state w)) =? 0) = false).
  { apply Z.eqb_neq. now rewrite length_zero. }
  destruct w as [s ar cl]. simpl in *. subst ar.
  unfold step, handler, before, perform, handlePrev. simpl.
  rewrite Hlen. unfold Js.gt. split; intros Htime.
  - destruct (Qle_bool (audio_currentTime audio) 5) eqn:E.
    + apply Qle_bool_iff in E. now apply Qlt_not_le in Htime.
    + simpl. unfold apply. simpl. now destruct s.
  - apply Qle_bool_iff in Htime. rewrite Htime. simpl.
    destruct (shuffle s); simpl; [now rewrite !app_nil_r |].
    destruct (currentIndex s) as [c |]; simpl; [| easy].
    destruct (c - 1 <? 0); simpl; [destruct (repeatMode s) |]; simpl;
      now rewrite !app_nil_r.
Qed.

Lemma previous_rewinds_after_five_witness :
  step API_BASE repeating_a (Previous 0)
  = mkWorld (state repeating_a) (Some (mkAudio 0 (Some 180%Q))) [seek 0] /\
  calls (step API_BASE playing_b (Previous 0)) = [].
Proof.
  destruct (@previous_rewinds_after_five API_BASE repeating_a 0
              (mkAudio 180 (Some 180%Q)) ltac:(discriminate) eq_refl)
    as [Late _].
  destruct (@previous_rewinds_after_five API_BASE playing_b 0
              (mkAudio 0 None) ltac:(discriminate) eq_refl)
    as [_ Early].
  split.
  - apply Late. reflexivity.
  - apply Early. unfold Qle. simpl. lia.
Defined.

(** X12.  Repeat-one only concerns a track's natural end.  With shuffle off,
    Next at the last index and Previous at index 0 stop playback and keep the
    index under repeat-one just as under repeat-off: only repeat-all wraps. *)
Theorem repeat_one_stops_at_both_ends (api : string) (w : World) (pick : Z) :
  0 < Js.length (tracks (state w)) ->
  shuffle (state w) = false ->
  repeatMode (state w) = one ->
  (currentIndex (state w) = Some (Js.length (tracks (state w)) - 1) ->
   isPlaying (state (step api w (Next pick))) = false /\
   currentIndex (state (step api w (Next pick)))
   = Some (Js.length (tracks (state w)) - 1)) /\
  (currentIndex (state w) = Some 0 ->
   (forall audio, audioRef w = Some audio ->
                  (audio_currentTime audio <= 5)%Q) ->
   isPlaying (state (step api w (Previous pick))) = false /\
   currentIndex (state (step api w (Previous pick))) = Some 0).
Proof.
  intros Hn Hsh Hrm. open_world w. subst sh rm.
  unfold step, handler, before, perform, handleNext, handlePrev. simpl.
  assert (Hlen : (Js.length tr =? 0) = false) by (apply Z.eqb_neq; lia).
  rewrite Hlen. split.
  - intros ->. decide_tests; [split; reflexivity | lia].
  - intros -> Hfive. apply past_five_seconds_false in Hfive.
    rewrite Hfive. simpl. split; reflexivity.
Qed.

(** The last of two tracks playing under repeat-one. *)
Lemma repeat_one_stops_at_both_ends_witness :
  isPlaying (state (step API_BASE
                         (mkWorld (mkState [song_a; song_b] (Some 1) true false
                                           one (8 # 10) 0 0) fresh_audio [])
                         (Next 0))) = false.
Proof.
  exact (proj1 (proj1 (@repeat_one_stops_at_both_ends API_BASE
                         (mkWorld (mkState [song_a; song_b] (Some 1) true false
                                           one (8 # 10) 0 0) fresh_audio [])
                         0 eq_refl eq_refl eq_refl) eq_refl)).
Defined.

(** X13.  With a single track, shuffle has nowhere else to go: Next, and
    Previous at most five seconds in, select index 0 again and play, also
    when index 0 is the current one. *)
Theorem single_track_shuffle_repeats (api : string) (w : World) (pick : Z) :
  Js.length (tracks (state w)) = 1 ->
  shuffle (state w) = true ->
  0 <= pick < Js.length (tracks (state w)) ->
  (currentIndex (state (step api w (Next pick))) = Some 0 /\
   isPlaying (state (step api w (Next pick))) = true) /\
  ((forall audio, audioRef w = Some audio ->
                  (audio_currentTime audio <= 5)%Q) ->
   currentIndex (state (step api w (Previous pick))) = Some 0 /\
   isPlaying (state (step api w (Previous pick))) = true).
Proof.
  intros Hn Hsh Hpick. open_world w. subst sh. rewrite Hn in Hpick.
  assert (pick = 0) as -> by lia.
  unfold step, handler, before, perform, handleNext, handlePrev. simpl.
  rewrite Hn. simpl. split; [now split |].
  intros Hfive. apply past_five_seconds_false in Hfive.
  rewrite Hfive. simpl. now split.
Qed.

Lemma single_track_shuffle_repeats_witness :
  currentIndex
    (state (step API_BASE
                 (mkWorld (mkState [song_a] (Some 0) true true off (8 # 10) 0 0)
                          fresh_audio [])
                 (Next 0))) = Some 0.
Proof.
  exact (proj1 (proj1 (@single_track_shuffle_repeats API_BASE
                         (mkWorld (mkState [song_a] (Some 0) true true off
                                           (8 # 10) 0 0) fresh_audio [])
                         0 eq_refl eq_refl (conj (Z.le_refl 0) eq_refl)))).
Defined.

(** ** Settings *)

Lemma repeat_clicks_iterate (api : string) (k : nat) :
  forall w,
    repeatMode (state (run api w (repeat RepeatClick k)))
    = Nat.iter k (fun mode => match mode with
                              | off => all
                              | all => one
                              | one => off
                              end)
               (repeatMode (state w)).
Proof.
  induction k as [| k IH]; intros w; [reflexivity |].
  rewrite Nat.iter_succ_r. unfold run in *. simpl. rewrite IH.
  now open_world w.
Qed.

(** X14.  The repeat button cycles off, all, one: [k] presses bring the mode
    back to where it was exactly when [k] is a multiple of three. *)
Theorem repeat_button_period_three (api : string) (w : World) (k : nat) :
  repeatMode (state (run api w (repeat RepeatClick k))) = repeatMode (state w)
  <-> (k mod 3 = 0)%nat.
Proof.
  rewrite repeat_clicks_iterate.
  assert (Hturn : forall q m,
             Nat.iter (3 * q) (fun mode => match mode with
                                           | off => all
                                           | all => one
                                           | one => off
                                           end) m = m).
  { induction q as [| q IHq]; intros m; [reflexivity |].
    replace (3 * S q)%nat with (3 + 3 * q)%nat by lia.
    rewrite Nat.iter_add, IHq. now destruct m. }
  pose proof (Nat.div_mod_eq k 3) as Hk.
  pose proof (Nat.mod_upper_bound k 3 ltac:(discriminate)) as Hr.
  revert Hk Hr. generalize (k mod 3)%nat as r, (k / 3)%nat as q.
  intros r q -> Hr.
  rewrite Nat.add_comm, Nat.iter_add, Hturn.
  destruct r as [| [| [| r]]]; simpl.
  - tauto.
  - split; [destruct (repeatMode (state w)) |]; discriminate.
  - split; [destruct (repeatMode (state w)) |]; discriminate.
  - lia.
Qed.

Lemma repeat_button_period_three_witness :
  repeatMode (state (run API_BASE playing_b (repeat RepeatClick 6))) = off.
Proof.
  exact (proj2 (@repeat_button_period_three API_BASE playing_b 6) eq_refl).
Defined.

(** X15.  The settings never move the playback position.  Any sequence of
    presses of the repeat, shuffle and volume buttons, moves of the volume
    slider and progress notifications leaves the library, [currentIndex] and
    [isPlaying] as they were, and the handlers themselves neither seek nor
    play nor log.  After each such event the only thing [Player] can do to
    the element is to assign its volume: for the same track object its
    effects come to nothing or to the one assignment of the new volume. *)
Theorem settings_leave_playback (api : string) (events : list Event) :
  Forall (fun e => match e with
                   | RepeatClick | ShuffleClick | VolumeClick
                   | VolumeChange _ | TimeUpdate _ _ => True
                   | _ => False
                   end) events ->
  (forall w,
      tracks (state (run api w events)) = tracks (state w) /\
      currentIndex (state (run api w events)) = currentIndex (state w) /\
      isPlaying (state (run api w events)) = isPlaying (state w) /\
      calls (run api w events) = calls w) /\
  (forall w e, In e events ->
      rerender true (audioRef w) (props (state w))
               (props (state (step api w e))) = [] \/
      rerender true (audioRef w) (props (state w))
               (props (state (step api w e)))
      = [set_volume (volume (state (step api w e)))]).
Proof.
  intros Hall. split.
  - induction events as [| e rest IH]; intros w; [now repeat split |].
    inversion Hall as [| ? ? He Hrest]; subst.
    unfold run in *. simpl. specialize (IH Hrest (step api w e)).
    destruct IH as [T [C [P L]]]. rewrite T, C, P, L.
    open_world w.
    destruct e; try contradiction;
      unfold step, handler, before, perform, update; simpl;
      try destruct ar; simpl; rewrite ?app_nil_r; now repeat split.
  - intros w e Hin. rewrite Forall_forall in Hall. specialize (Hall e Hin).
    open_world w.
    assert (Hsame : Qeq_bool vol vol = true)
      by (apply Qeq_bool_iff; reflexivity).
    destruct e; try contradiction;
      unfold rerender, props, current_track, step, handler, before, perform,
        update, volume_effect; simpl;
      rewrite ?Bool.eqb_reflx; simpl;
      try (left; destruct ar; simpl; rewrite ?Bool.eqb_reflx, ?Hsame;
           reflexivity).
    + destruct (Qeq_bool vol (mute_toggle vol)); [now left |].
      destruct ar; [now right | now left].
    + destruct (Qeq_bool vol (to v vol)); [now left |].
      destruct ar; [now right | now left].
Qed.

Lemma settings_leave_playback_witness :
  currentIndex (state (run API_BASE playing_b
                           [ShuffleClick; VolumeChange (3 # 10);
                            TimeUpdate 12 (Some 200%Q); RepeatClick]))
  = Some 1 /\
  rerender true (audioRef playing_b) (props (state playing_b))
           (props (state (step API_BASE playing_b (VolumeChange (3 # 10)))))
  = [set_volume (3 # 10)].
Proof.
  assert (Hall : Forall (fun e => match e with
                                  | RepeatClick | ShuffleClick | VolumeClick
                                  | VolumeChange _ | TimeUpdate _ _ => True
                                  | _ => False
                                  end)
                        [ShuffleClick; VolumeChange (3 # 10);
                         TimeUpdate 12 (Some 200%Q); RepeatClick])
    by (repeat constructor).
  destruct (@settings_leave_playback API_BASE _ Hall) as [Frame _].
  split; [exact (proj1 (proj2 (Frame playing_b))) | reflexivity].
Defined.

(** ** What is reachable *)

(** X16.  The component as shipped (client-only mode) never plays without a
    track: in every reachable state with [isPlaying] true, [currentIndex] is
    the index of a track of the library, which is the track handed to
    [Player] and the one whose title is shown. *)
Theorem playing_has_a_track (w : World) :
  reachable w ->
  isPlaying (state w) = true ->
  exists i t,
    currentIndex (state w) = Some i /\
    Js.get (tracks (state w)) i = Some t /\
    current_track (state w) = Some t /\
    heading (state w) = Some (title t).
Proof.
  intros Hreach Hplay.
  assert (Hinv : selected_when_playing (state w)).
  { clear Hplay. induction Hreach as [r | w e _ IH Hok].
    - split; simpl; [reflexivity | discriminate].
    - now apply step_keeps. }
  destruct Hinv as [Hidle Hrange].
  unfold current_track, heading.
  destruct (currentIndex (state w)) as [i |] eqn:Hci.
  - destruct (proj1 (get_in_range (tracks (state w)) i) (Hrange i eq_refl))
      as [t Ht].
    exists i, t. rewrite Ht. now repeat split.
  - rewrite (Hidle eq_refl) in Hplay. discriminate.
Qed.

Lemma playing_has_a_track_witness :
  exists i t,
    currentIndex (state (run API_BASE mounted
                             [Upload one_file (rejected "unused"); PlayPause]))
    = Some i /\
    Js.get (tracks (state (run API_BASE mounted
                               [Upload one_file (rejected "unused");
                                PlayPause]))) i
    = Some t.
Proof.
  destruct (@playing_has_a_track
              (run API_BASE mounted
                   [Upload one_file (rejected "unused"); PlayPause]))
    as [i [t [Hi [Ht _]]]].
  - unfold run. simpl fold_left.
    repeat (apply reach_step; [| exact I]). apply reach_init.
  - reflexivity.
  - exists i, t. now split.
Defined.

(** ** The seek bar *)



(** ** Loading the library at mount *)

(** X18.  The mount effect does nothing in client-only mode.  In server mode
    a failed request only logs; an answer replaces the library by the tracks
    received, whatever was there, selects index 0 when there is at least one
    and never starts playback, so that from the initial state the result
    satisfies the invariant of the data model. *)
Theorem load_library_replaces (api : string) (w : World)
    (response : Settled (list Track)) :
  (Js.truthy api = false -> perform w (loadLibrary api response) = w) /\
  (Js.truthy api = true ->
   (forall err, response = rejected err ->
      state (perform w (loadLibrary api response)) = state w /\
      calls (perform w (loadLibrary api response))
      = calls w ++ [console_error "Failed to load tracks"]) /\
   (forall data, response = fulfilled data ->
      tracks (state (perform w (loadLibrary api response))) = data /\
      currentIndex (state (perform w (loadLibrary api response)))
      = match data with
        | [] => currentIndex (state w)
        | _ :: _ => Some 0
        end /\
      isPlaying (state (perform w (loadLibrary api response)))
      = isPlaying (state w) /\
      (state w = initial_state ->
       consistent (state (perform w (loadLibrary api response)))))).
Proof.
  unfold perform, loadLibrary. split; intros ->; simpl; [reflexivity |].
  destruct w as [s ar cl]. split.
  - intros err ->. simpl. split; [now destruct s | reflexivity].
  - intros data ->.
    assert (Hdata : (Js.length data >? 0)
                    = match data with [] => false | _ :: _ => true end).
    { destruct data; [reflexivity |]. apply Z.gtb_lt.
      unfold Js.length. simpl List.length. lia. }
    simpl. rewrite Hdata.
    destruct data as [| t data]; simpl.
    + split; [reflexivity |]. split; [reflexivity |].
      split; [reflexivity |]. intros ->. simpl.
      split; [now split | discriminate].
    + split; [reflexivity |]. split; [reflexivity |].
      split; [reflexivity |]. intros ->. simpl.
      unfold consistent, Js.length. simpl.
      split; [lia | intros i [= <-]; lia].
Qed.

Lemma load_library_replaces_witness :
  perform mounted (loadLibrary API_BASE (fulfilled [song_a])) = mounted /\
  tracks (state (perform playing_b (loadLibrary server (fulfilled [song_c]))))
  = [song_c] /\
  currentIndex (state (perform mounted
                               (loadLibrary server (fulfilled [song_a]))))
  = Some 0.
Proof.
  destruct (@load_library_replaces API_BASE mounted (fulfilled [song_a]))
    as [Client _].
  destruct (@load_library_replaces server playing_b (fulfilled [song_c]))
    as [_ Over].
  destruct (@load_library_replaces server mounted (fulfilled [song_a]))
    as [_ Start].
  split; [exact (Client eq_refl) |].
  split.
  - exact (proj1 (proj2 (Over eq_refl) _ eq_refl)).
  - exact (proj1 (proj2 (proj2 (Start eq_refl) _ eq_refl))).
Defined.

(** ** [Player] behind the handlers *)

(** X19.  Pausing and resuming reload the track.  [isPlaying] is a
    dependency of the effect that assigns [audio.src], so a press of the play
    button with a track selected assigns the source again before it pauses,
    or before it plays (twice, once by each effect), whether or not React
    sees the same track object. *)
Theorem play_pause_reassigns_source (api : string) (same_track : bool)
    (w : World) (i : Z) (track : Track) (audio : Audio) :
  currentIndex (state w) = Some i ->
  Js.get (tracks (state w)) i = Some track ->
  audioRef w = Some audio ->
  rerender same_track (audioRef w) (props (state w))
           (props (state (step api w PlayPause)))
  = if isPlaying (state w)
    then [set_src (url track); element_pause]
    else [set_src (url track); element_play; element_play].
Proof.
  intros Hci Hget Href. open_world w. subst ci ar.
  unfold rerender, props, current_track, step, handler, before, perform,
    handlePlayPause. simpl.
  rewrite Hget.
  assert (Qeq_bool vol vol = true) as -> by (apply Qeq_bool_iff; reflexivity).
  destruct ip; simpl; now rewrite andb_false_r.
Qed.

Lemma play_pause_reassigns_source_witness :
  rerender true (audioRef playing_b) (props (state playing_b))
           (props (state (step API_BASE playing_b PlayPause)))
  = [set_src "blob:b"; element_pause].
Proof.
  exact (@play_pause_reassigns_source API_BASE true playing_b 1 song_b
           (mkAudio 0 None) eq_refl eq_refl eq_refl).
Defined.

(** X20.  Removing the current track never touches the source of the
    element: [Player] pauses it when it was playing and does nothing
    otherwise, so the element keeps the removed track loaded.  Stated for
    client-only mode, where the handler queues its three updates within the
    click and React renders once. *)
Theorem removing_current_only_pauses (api : string) (same_track : bool)
    (w : World) (i : Z) (deleted : Settled unit) :
  currentIndex (state w) = Some i ->
  0 <= i < Js.length (tracks (state w)) ->
  audioRef w <> None ->
  Js.truthy api = false ->
  rerender same_track (audioRef w) (props (state w))
           (props (state (step api w (Remove i deleted))))
  = if isPlaying (state w) then [element_pause] else [].
Proof.
  intros Hci Hi Href Hmode.
  destruct (proj1 (get_in_range (tracks (state w)) i) Hi) as [track Hget].
  open_world w. subst ci.
  destruct ar as [audio |]; [clear Href | contradiction].
  assert (E : state (step api (mkWorld (mkState tr (Some i) ip sh rm vol ct du)
                                       (Some audio) cl) (Remove i deleted))
              = mkState (without i tr) None false sh rm vol ct du).
  { unfold step, handler, before, perform, handleRemove. simpl.
    rewrite Hget, Hmode. simpl.
    rewrite Z.ltb_irrefl, Z.eqb_refl. reflexivity. }
  rewrite E. unfold rerender, props, current_track. simpl.
  assert (Qeq_bool vol vol = true) as -> by (apply Qeq_bool_iff; reflexivity).
  destruct ip, same_track; reflexivity.
Qed.

Lemma removing_current_only_pauses_witness :
  rerender false (audioRef playing_b) (props (state playing_b))
           (props (state (step API_BASE playing_b (Remove 1 (fulfilled tt)))))
  = [element_pause].
Proof.
  exact (@removing_current_only_pauses API_BASE false playing_b 1
           (fulfilled tt) eq_refl (conj (Zle_0_pos 1) eq_refl)
           ltac:(discriminate) eq_refl).
Defined.

(** ** [TrackList] *)

Lemma rows_from_spec (current : option Z) (library : list Track) :
  forall idx row,
    In row (rows_from current idx library) ->
    idx <= row_index row < idx + Js.length library /\
    exists t,
      nth_error library (Z.to_nat (row_index row - idx)) = Some t /\
      key row = id t /\ label row = title t /\
      highlighted row = Js.strictEq (row_index row) current.
Proof.
  induction library as [| t rest IH]; intros idx row Hin; simpl in Hin.
  - contradiction.
  - unfold Js.length. simpl List.length.
    destruct Hin as [<- | Hin]; simpl.
    + split; [lia |]. exists t. rewrite Z.sub_diag. now repeat split.
    + destruct (IH (idx + 1) row Hin) as [Hr [t' [Hn Hrest]]].
      unfold Js.length in Hr. split; [lia |]. exists t'.
      replace (Z.to_nat (row_index row - idx))
        with (S (Z.to_nat (row_index row - (idx + 1)))) by lia.
      now split.
Qed.

(** X21.  Every row of [TrackList] carries the index of its own track: the
    index is inside the library, so neither [handleSelect] nor [handleRemove]
    ever rejects it, and a click on the row makes the track with the row's
    key and label the current one and plays it. *)
Theorem row_click_selects_its_track (api : string) (w : World) (row : Row) :
  In row (TrackList (tracks (state w)) (currentIndex (state w))) ->
  0 <= row_index row < Js.length (tracks (state w)) /\
  exists t,
    current_track (state (step api w (Select (row_index row)))) = Some t /\
    id t = key row /\ title t = label row /\
    isPlaying (state (step api w (Select (row_index row)))) = true.
Proof.
  intros Hin. apply rows_from_spec in Hin.
  destruct Hin as [Hr [t [Hn [Hk [Hl _]]]]]. rewrite Z.sub_0_r in Hn.
  split; [lia |]. exists t. open_world w.
  unfold step, handler, before, perform, handleSelect, current_track. simpl.
  destruct (Z.ltb_spec (row_index row) 0); [lia |].
  rewrite Z.geb_leb.
  destruct (Z.leb_spec (Js.length tr) (row_index row)); [lia |]. simpl.
  unfold Js.get. destruct (Z.ltb_spec (row_index row) 0); [lia |].
  now repeat split.
Qed.

Lemma row_click_selects_its_track_witness :
  exists t,
    current_track (state (step API_BASE playing_b (Select 2))) = Some t /\
    id t = "3-c".
Proof.
  destruct (@row_click_selects_its_track API_BASE playing_b
              (mkRow "3-c" "C" false 2)) as [_ [t [Ht [Hk _]]]].
  - simpl. right. right. left. reflexivity.
  - exists t. now split.
Defined.

Lemma rows_from_highlight (current : option Z) (library : list Track) :
  forall idx,
    filter highlighted (rows_from current idx library)
    = match current with
      | Some i =>
          if i <? idx then []
          else match nth_error library (Z.to_nat (i - idx)) with
               | Some t => [mkRow (id t) (title t) true i]
               | None => []
               end
      | None => []
      end.
Proof.
  induction library as [| t rest IH]; intros idx; simpl.
  - destruct current as [i |]; [| reflexivity].
    destruct (i <? idx); [reflexivity |]. now rewrite nth_error_nil.
  - rewrite IH. destruct current as [i |]; simpl; [| reflexivity].
    destruct (Z.eqb_spec idx i) as [-> | Hne]; simpl.
    + rewrite Z.ltb_irrefl, Z.sub_diag. simpl.
      destruct (Z.ltb_spec i (i + 1)); [reflexivity | lia].
    + destruct (Z.ltb_spec i idx), (Z.ltb_spec i (idx + 1)); try lia;
        try reflexivity.
      replace (Z.to_nat (i - idx)) with (S (Z.to_nat (i - (idx + 1)))) by lia.
      reflexivity.
Qed.

(** X22.  At most one row is highlighted, and it is the row of the current
    track: the highlighted rows are that single row when [currentIndex] is
    the index of a track, and none otherwise. *)
Theorem highlight_is_current_track (s : State) :
  filter highlighted (TrackList (tracks s) (currentIndex s))
  = match currentIndex s, current_track s with
    | Some i, Some t => [mkRow (id t) (title t) true i]
    | _, _ => []
    end.
Proof.
  unfold TrackList, current_track. rewrite rows_from_highlight.
  destruct (currentIndex s) as [i |]; [| reflexivity].
  unfold Js.get. rewrite Z.sub_0_r. now destruct (i <? 0).
Qed.

(** * The server *)

(** ** Deleting by id *)

Lemma findIndex_from_absent (wanted : string) (a : list Track) :
  forall k, 0 <= k ->
    (forall t, In t a -> id t <> wanted) ->
    findIndex_from (fun t => String.eqb (id t) wanted) k a = -1.
Proof.
  induction a as [| t r IH]; intros k Hk Habsent; simpl; [reflexivity |].
  destruct (String.eqb_spec (id t) wanted) as [E | _].
  - exfalso. apply (Habsent t); [now left | exact E].
  - apply IH; [lia |]. intros x Hx. apply Habsent. now right.
Qed.

Lemma findIndex_from_first (wanted : string) (before : list Track)
    (t : Track) (rest : list Track) :
  forall k,
    (forall x, In x before -> id x <> wanted) ->
    id t = wanted ->
    findIndex_from (fun t => String.eqb (id t) wanted) k (before ++ t :: rest)
    = k + Js.length before.
Proof.
  induction before as [| b before IH]; intros k Hbefore Ht; simpl.
  - rewrite Ht, String.eqb_refl. unfold Js.length. simpl. lia.
  - destruct (String.eqb_spec (id b) wanted) as [E | _].
    + exfalso. apply (Hbefore b); [now left | exact E].
    + rewrite IH; [| intros x Hx; apply Hbefore; now right | exact Ht].
      unfold Js.length. simpl List.length. lia.
Qed.

Lemma get_middle (before : list Track) (t : Track) (rest : list Track) :
  Js.get (before ++ t :: rest) (Js.length before) = Some t.
Proof.
  unfold Js.get, Js.length.
  destruct (Z.ltb_spec (Z.of_nat (List.length before)) 0); [lia |].
  rewrite Nat2Z.id, nth_error_app2 by lia. now rewrite Nat.sub_diag.
Qed.

Lemma splice_middle (before : list Track) (t : Track) (rest : list Track) :
  firstn (Z.to_nat (Js.length before)) (before ++ t :: rest)
  ++ skipn (S (Z.to_nat (Js.length before))) (before ++ t :: rest)
  = before ++ rest.
Proof.
  unfold Js.length. rewrite Nat2Z.id.
  induction before as [| b before IH]; [reflexivity |].
  cbn [firstn skipn List.length app]. f_equal. exact IH.
Qed.

(** Either no track has the id, or there is a first one that does. *)
Lemma first_with_id (wanted : string) (library : list Track) :
  (forall t, In t library -> id t <> wanted) \/
  exists before t rest,
    library = before ++ t :: rest /\
    (forall x, In x before -> id x <> wanted) /\
    id t = wanted.
Proof.
  induction library as [| t r IH]; [left; intros t [] |].
  destruct (String.eqb_spec (id t) wanted) as [E | Hne].
  - right. exists [], t, r. now repeat split.
  - destruct IH as [Hnone | [before [t' [rest [-> [Hb Ht]]]]]].
    + left. intros x [<- | Hx]; [exact Hne | now apply Hnone].
    + right. exists (t :: before), t', rest. repeat split; [| exact Ht].
      intros x [<- | Hx]; [exact Hne | now apply Hb].
Qed.

Lemma delete_absent (req : Request) (wanted : string) (library : list Track) :
  (forall t, In t library -> id t <> wanted) ->
  delete_track req wanted library = (library, not_found, None).
Proof.
  intros H. unfold delete_track, findIndex.
  now rewrite findIndex_from_absent by (try lia; assumption).
Qed.

Lemma delete_found (req : Request) (wanted : string)
    (before : list Track) (t : Track) (rest : list Track) :
  (forall x, In x before -> id x <> wanted) ->
  id t = wanted ->
  fst (fst (delete_track req wanted (before ++ t :: rest))) = before ++ rest /\
  snd (fst (delete_track req wanted (before ++ t :: rest))) = ok_true.
Proof.
  intros Hbefore Ht. unfold delete_track, findIndex.
  rewrite findIndex_from_first by assumption. simpl (0 + _).
  pose proof (length_nonneg before).
  destruct (Z.eqb_spec (Js.length before) (-1)); [lia |].
  rewrite get_middle, splice_middle.
  now destruct (String.prefix _ _).
Qed.

(** X23.  [DELETE /api/tracks/:id] answers 404 and leaves the library alone
    when no track has the id; otherwise it answers [ok] and takes out the
    first track with that id and no other, the rest keeping their order.  It
    never reads a track that is not there. *)
Theorem delete_takes_first_with_id (req : Request) (wanted : string)
    (library : list Track) :
  ((forall t, In t library -> id t <> wanted) ->
   delete_track req wanted library = (library, not_found, None)) /\
  (forall before t rest,
      library = before ++ t :: rest ->
      (forall x, In x before -> id x <> wanted) ->
      id t = wanted ->
      fst (fst (delete_track req wanted library)) = before ++ rest /\
      snd (fst (delete_track req wanted library)) = ok_true) /\
  snd (fst (delete_track req wanted library)) <> type_error.
Proof.
  split; [apply delete_absent |].
  split; [intros before t rest ->; apply delete_found |].
  destruct (@first_with_id wanted library)
    as [Hnone | [before [t [rest [-> [Hb Ht]]]]]].
  - rewrite (@delete_absent req wanted _ Hnone). discriminate.
  - rewrite (proj2 (@delete_found req wanted before t rest Hb Ht)).
    discriminate.
Qed.

(** The library of the sample worlds, as the server would hold it. *)
Lemma delete_takes_first_with_id_witness :
  delete_track (mkRequest None "http" (Some "localhost:4000")) "9-z"
               [song_a; song_b]
  = ([song_a; song_b], not_found, None) /\
  fst (fst (delete_track (mkRequest None "http" (Some "localhost:4000")) "2-b"
                         [song_a; song_b; song_c]))
  = [song_a; song_c].
Proof.
  destruct (@delete_takes_first_with_id
              (mkRequest None "http" (Some "localhost:4000")) "9-z"
              [song_a; song_b]) as [Absent _].
  destruct (@delete_takes_first_with_id
              (mkRequest None "http" (Some "localhost:4000")) "2-b"
              [song_a; song_b; song_c]) as [_ [Found _]].
  split.
  - apply Absent. intros t [<- | [<- | []]]; discriminate.
  - refine (proj1 (Found [song_a] song_b [song_c] eq_refl _ eq_refl)).
    intros x [<- | []]. discriminate.
Defined.

(** X24.  With ids that are unique in the library, a deleted track is gone
    for good: a second request for the same id is answered 404. *)
Theorem delete_twice_is_not_found (req : Request) (wanted : string)
    (library : list Track) :
  NoDup (map id library) ->
  snd (fst (delete_track req wanted library)) = ok_true ->
  snd (fst (delete_track req wanted
                         (fst (fst (delete_track req wanted library)))))
  = not_found.
Proof.
  intros Hunique Hok.
  destruct (@first_with_id wanted library)
    as [Hnone | [before [t [rest [-> [Hb Ht]]]]]].
  - rewrite (@delete_absent req wanted _ Hnone) in Hok. discriminate.
  - rewrite (proj1 (@delete_found req wanted before t rest Hb Ht)).
    assert (Hgone : forall x, In x (before ++ rest) -> id x <> wanted).
    { rewrite map_app in Hunique. simpl in Hunique.
      apply NoDup_remove_2 in Hunique.
      intros x Hx Hid. apply Hunique. rewrite <- map_app, Ht, <- Hid.
      now apply in_map. }
    now rewrite (@delete_absent req wanted _ Hgone).
Qed.

Lemma delete_twice_is_not_found_witness :
  snd (fst (delete_track
              (mkRequest None "http" (Some "localhost:4000")) "2-b"
              (fst (fst (delete_track
                           (mkRequest None "http" (Some "localhost:4000"))
                           "2-b" [song_a; song_b; song_c])))))
  = not_found.
Proof.
  apply (@delete_twice_is_not_found
           (mkRequest None "http" (Some "localhost:4000")) "2-b"
           [song_a; song_b; song_c]).
  - repeat constructor; simpl; intuition discriminate.
  - reflexivity.
Defined.

(** ** Front end and server in step *)

(** X25.  With ids that are unique, the front end and the server agree on a
    deletion: the library [handleRemove] leaves for the row at index [j] is
    the library the server holds after the DELETE request for that track's
    id, when both held the same library before. *)
Theorem delete_in_step (api : string) (req : Request) (w : World) (j : Z)
    (t : Track) :
  Js.truthy api = true ->
  NoDup (map id (tracks (state w))) ->
  Js.get (tracks (state w)) j = Some t ->
  tracks (state (step api w (Remove j (fulfilled tt))))
  = fst (fst (delete_track req (id t) (tracks (state w)))).
Proof.
  intros Hapi Hunique Hget.
  assert (Hj : 0 <= j < Js.length (tracks (state w)))
    by (apply get_in_range; now exists t).
  assert (Hfront : tracks (state (step api w (Remove j (fulfilled tt))))
                   = without j (tracks (state w))).
  { open_world w. unfold step, handler, before, perform, handleRemove.
    simpl. rewrite Hget, Hapi. simpl. unfold Js.lt, Js.strictEq.
    destruct ci as [c |]; simpl; decide_tests; reflexivity. }
  rewrite Hfront, without_spec by lia.
  unfold Js.get in Hget. destruct (Z.ltb_spec j 0); [lia |].
  destruct (nth_error_split _ _ Hget) as [before [rest [E Hlen]]].
  assert (Hpos : Z.to_nat j = Z.to_nat (Js.length before))
    by (unfold Js.length; lia).
  rewrite E in *. rewrite Hpos, splice_middle.
  symmetry. apply delete_found; [| reflexivity].
  rewrite map_app in Hunique. simpl in Hunique.
  apply NoDup_remove_2 in Hunique.
  intros x Hx Hid. apply Hunique. apply in_or_app. left.
  rewrite <- Hid. now apply in_map.
Qed.

Lemma delete_in_step_witness :
  tracks (state (step server playing_b (Remove 1 (fulfilled tt))))
  = fst (fst (delete_track (mkRequest None "http" (Some "localhost:4000"))
                           "2-b" (tracks (state playing_b)))).
Proof.
  apply (@delete_in_step server
           (mkRequest None "http" (Some "localhost:4000")) playing_b 1 song_b).
  - reflexivity.
  - repeat constructor; simpl; intuition discriminate.
  - reflexivity.
Defined.

Lemma post_upload_loop (req : Request) (files : list Received) :
  forall library added,
    fold_left (fun (acc : list Track * list Track) file =>
                 (fst acc ++ [track_of req file],
                  snd acc ++ [track_of req file]))
              files (library, added)
    = (library ++ map (track_of req) files,
       added ++ map (track_of req) files).
Proof.
  induction files as [| f files IH]; intros library added; simpl.
  - now rewrite !app_nil_r.
  - rewrite IH. now rewrite <- !app_assoc.
Qed.

Lemma prefix_app (a c : string) : String.prefix a (a ++ c)%string = true.
Proof.
  induction a as [| x a IH]; simpl; [now destruct c |].
  destruct (ascii_dec x x) as [_ | Hne]; [exact IH | contradiction].
Qed.

Lemma string_app_assoc (a b c : string) :
  ((a ++ b) ++ c)%string = (a ++ (b ++ c))%string.
Proof. induction a as [| x a IH]; simpl; [reflexivity | now rewrite IH]. Qed.

(** X26.  [POST /api/upload] appends one track per file, in the order of the
    files, and answers exactly the tracks it appended; a request without
    files appends nothing.  Each new track has the title of its file without
    the last extension and a url under [<origin>/uploads/].  The front end,
    appending the answer, ends up with the server's library when they agreed
    before. *)
Theorem post_appends_what_it_answers (api : string) (req : Request)
    (files : list Received) (library : list Track) :
  post_upload req (Some files) library
  = (library ++ map (track_of req) files, map (track_of req) files) /\
  post_upload req None library = (library, []) /\
  (forall t, In t (snd (post_upload req (Some files) library)) ->
     String.prefix (getOrigin req ++ "/uploads/") (url t) = true /\
     exists file, In file files /\ id t = minted file /\
                  title t = Js.strip_extension (originalname file)) /\
  (forall w picked,
     Js.truthy api = true -> picked <> [] -> tracks (state w) = library ->
     tracks (state (step api w
                         (Upload picked
                                 (fulfilled (snd (post_upload req (Some files)
                                                              library))))))
     = fst (post_upload req (Some files) library)).
Proof.
  assert (E : post_upload req (Some files) library
              = (library ++ map (track_of req) files,
                 map (track_of req) files)).
  { unfold post_upload. now rewrite post_upload_loop. }
  rewrite E. simpl. split; [reflexivity |]. split; [reflexivity |]. split.
  - intros t Hin. apply in_map_iff in Hin as [file [<- Hfile]]. split.
    + unfold track_of, absoluteUrl. simpl.
      change (String "/" (String "u" (String "p" (String "l" (String "o"
                (String "a" (String "d" (String "s" (String "/"
                   (filename file))))))))))
        with ("/uploads/" ++ filename file)%string.
      rewrite <- string_app_assoc. apply prefix_app.
    + exists file. now repeat split.
  - intros w picked Hapi Hpicked <-.
    assert (Hlen : (Js.length picked =? 0) = false).
    { apply Z.eqb_neq. now rewrite length_zero. }
    open_world w. unfold step, handler, before, perform, handleUpload.
    simpl. rewrite Hlen, Hapi. simpl.
    destruct ci; [reflexivity |].
    now destruct (0 <? Js.length (map (track_of req) files)).
Qed.

Lemma post_appends_what_it_answers_witness :
  tracks (state (step server mounted
                      (Upload one_file
                              (fulfilled
                                 (snd (post_upload
                                         (mkRequest None "http"
                                                    (Some "localhost:4000"))
                                         (Some [mkReceived "a b.mp3"
                                                           "1700__a_b.mp3"
                                                           "1700-x"])
                                         []))))))
  = [mkTrack "1700-x" "a b" "http://localhost:4000/uploads/1700__a_b.mp3"].
Proof.
  destruct (@post_appends_what_it_answers server
              (mkRequest None "http" (Some "localhost:4000"))
              [mkReceived "a b.mp3" "1700__a_b.mp3" "1700-x"] [])
    as [_ [_ [_ Front]]].
  rewrite (Front mounted one_file eq_refl ltac:(discriminate) eq_refl).
  reflexivity.
Defined.

(** ** Stored files *)

Lemma kept_is_no_slash (c : ascii) : kept c = true -> Ascii.eqb c "/" = false.
Proof.
  intros Hc. destruct (Ascii.eqb_spec c "/") as [-> | _]; [| reflexivity].
  discriminate Hc.
Qed.

Lemma safe_is_slashless (originalname : string) :
  slashless (safe originalname) = true.
Proof.
  induction originalname as [| c r IH]; simpl; [reflexivity |].
  rewrite IH, andb_true_r. apply negb_true_iff, kept_is_no_slash.
  destruct (kept c) eqn:E; [exact E | reflexivity].
Qed.

(** X27.  The name a file is stored under keeps the length of the original
    name and holds only letters, digits, [_], [.] and [-]: in particular no
    [/], so that it cannot point outside the uploads directory.  Cleaning a
    clean name changes nothing. *)
Theorem safe_names_are_safe (originalname : string) :
  String.length (safe originalname) = String.length originalname /\
  (forall c, In c (list_ascii_of_string (safe originalname)) ->
             kept c = true) /\
  slashless (safe originalname) = true /\
  safe (safe originalname) = safe originalname.
Proof.
  split; [| split; [| split; [apply safe_is_slashless |]]];
    induction originalname as [| c r IH]; simpl; try reflexivity.
  - now rewrite IH.
  - intros x [].
  - assert (Hc : kept (if kept c then c else "_"%char) = true)
      by (destruct (kept c) eqn:E; [exact E | reflexivity]).
    intros x [<- | Hx]; [exact Hc | now apply IH].
  - assert (Hc : kept (if kept c then c else "_"%char) = true)
      by (destruct (kept c) eqn:E; [exact E | reflexivity]).
    now rewrite Hc, IH.
Qed.

Lemma safe_names_are_safe_witness :
  safe "../etc/my song.mp3" = ".._etc_my_song.mp3" /\
  kept "_" = true.
Proof.
  destruct (@safe_names_are_safe "../etc/my song.mp3") as [_ [Kept _]].
  split; [reflexivity |].
  apply Kept. simpl. right. right. left. reflexivity.
Defined.

(** ** The file a deletion unlinks *)

Lemma cut_eq (sep s : string) :
  cut sep s
  = if String.prefix sep s
    then (EmptyString, Some (skip_chars (String.length sep) s))
    else match s with
         | EmptyString => (EmptyString, None)
         | String c r =>
             let (piece, rest) := cut sep r in (String c piece, rest)
         end.
Proof. destruct s; reflexivity. Qed.

Lemma prefix_cons (a b : ascii) (s1 s2 : string) :
  String.prefix (String a s1) (String b s2)
  = if ascii_dec a b then String.prefix s1 s2 else false.
Proof. reflexivity. Qed.

Lemma cut_other (c : ascii) (r : string) :
  Ascii.eqb c "/" = false ->
  cut "/uploads/" (String c r)
  = (String c (fst (cut "/uploads/" r)), snd (cut "/uploads/" r)).
Proof.
  intros Hc. rewrite cut_eq.
  assert (String.prefix "/uploads/" (String c r) = false) as ->.
  { rewrite prefix_cons.
    destruct (ascii_dec "/" c) as [<- | _]; [discriminate Hc | reflexivity]. }
  now destruct (cut "/uploads/" r).
Qed.

(** Text without a slash is passed over. *)
Lemma cut_slashless (a r : string) :
  slashless a = true ->
  cut "/uploads/" (a ++ r)
  = ((a ++ fst (cut "/uploads/" r))%string, snd (cut "/uploads/" r)).
Proof.
  intros Ha. induction a as [| c a IH]; cbn [append].
  - now destruct (cut "/uploads/" r).
  - simpl in Ha. apply andb_true_iff in Ha as [Hc Ha].
    apply negb_true_iff in Hc. rewrite cut_other by exact Hc.
    now rewrite (IH Ha).
Qed.

Lemma app_empty (s : string) : (s ++ "")%string = s.
Proof. induction s as [| c s IH]; simpl; [reflexivity | now rewrite IH]. Qed.

Lemma cut_whole (f : string) :
  slashless f = true -> fst (cut "/uploads/" f) = f.
Proof.
  intros Hf. pose proof (@cut_slashless f "" Hf) as E.
  rewrite app_empty in E. rewrite E. simpl. apply app_empty.
Qed.

(** A host without a slash only looks like the separator when it is called
    [uploads]. *)
Lemma host_is_not_separator (h r : string) :
  slashless h = true -> h <> "uploads" ->
  String.prefix "uploads/" (h ++ String "/" r) = false.
Proof.
  intros Hh Hne.
  repeat (destruct h as [| ? h]; cbn [append]; rewrite prefix_cons;
          [ match goal with
            | |- (if ascii_dec ?a ?b then _ else _) = _ =>
                destruct (ascii_dec a b) as [E | _];
                [ try discriminate E; exfalso; now apply Hne | reflexivity ]
            end
          | match goal with
            | |- (if ascii_dec ?a ?b then _ else _) = _ =>
                destruct (ascii_dec a b) as [<- | _]; [| reflexivity]
            end;
            simpl in Hh; try discriminate Hh ]).
Qed.

(** X28.  For a track this server stored, deleted through a request with the
    origin it was stored under, the name handed to [unlink] is the name the
    file was stored under, provided that name, the protocol and the host hold
    no slash and the host is not called [uploads]; the names the storage makes
    up hold no slash when the time stamp holds none. *)
Theorem unlink_names_the_stored_file (req : Request) (proto h : string)
    (file : Received) (before rest : list Track) :
  getOrigin req = (proto ++ "://" ++ h)%string ->
  slashless proto = true ->
  slashless h = true ->
  h <> "uploads" ->
  (forall x, In x before -> id x <> minted file) ->
  (slashless (filename file) = true ->
   snd (delete_track req (minted file) (before ++ track_of req file :: rest))
   = Some (Some (filename file))) /\
  (forall ts name, slashless ts = true ->
                   slashless (stored_name ts name) = true).
Proof.
  intros Horigin Hproto Hh Hne Hbefore. split.
  - intros Hfile. unfold delete_track, findIndex.
    rewrite findIndex_from_first by (try assumption; reflexivity).
    simpl (0 + _). pose proof (length_nonneg before).
    destruct (Z.eqb_spec (Js.length before) (-1)); [lia |].
    rewrite get_middle.
    assert (Hurl : url (track_of req file)
                   = ((getOrigin req ++ "/uploads/") ++ filename file)%string).
    { unfold track_of, absoluteUrl. simpl.
      change (String "/" (String "u" (String "p" (String "l" (String "o"
                (String "a" (String "d" (String "s" (String "/"
                   (filename file))))))))))
        with ("/uploads/" ++ filename file)%string.
      now rewrite string_app_assoc. }
    rewrite Hurl, prefix_app. simpl snd. do 2 f_equal.
    rewrite Horigin, !string_app_assoc.
    unfold second_piece.
    rewrite cut_slashless by exact Hproto.
    change ("://" ++ h ++ "/uploads/" ++ filename file)%string
      with (String ":" (String "/" (String "/"
              (h ++ String "/" ("uploads/" ++ filename file)))))%string.
    rewrite cut_other by reflexivity.
    rewrite (cut_eq _ (String "/" (String "/" _))).
    change (String.prefix "/uploads/" (String "/" (String "/"
              (h ++ String "/" ("uploads/" ++ filename file)))))%string
      with false.
    cbv iota.
    rewrite (cut_eq _ (String "/" (h ++ _))).
    assert (String.prefix "/uploads/"
              (String "/" (h ++ String "/" ("uploads/" ++ filename file)))
            = false) as ->.
    { rewrite prefix_cons.
      destruct (ascii_dec "/" "/") as [_ | N]; [| contradiction].
      now apply host_is_not_separator. }
    rewrite cut_slashless by exact Hh.
    rewrite (cut_eq _ (String "/" ("uploads/" ++ filename file))).
    change (String "/" ("uploads/" ++ filename file))%string
      with ("/uploads/" ++ filename file)%string.
    rewrite prefix_app. simpl snd.
    change (skip_chars (String.length "/uploads/")
                 ("/uploads/" ++ filename file))%string
      with (filename file).
    cbv iota. now rewrite cut_whole.
  - intros ts name Hts. unfold stored_name.
    induction ts as [| c ts IH]; simpl.
    + apply safe_is_slashless.
    + simpl in Hts. apply andb_true_iff in Hts as [Hc Hts].
      rewrite Hc. simpl. now apply IH.
Qed.

Lemma unlink_names_the_stored_file_witness :
  snd (delete_track (mkRequest None "http" (Some "localhost:4000")) "1700-x"
                    [song_a;
                     track_of (mkRequest None "http" (Some "localhost:4000"))
                              (mkReceived "a b.mp3" "1700__a_b.mp3" "1700-x")])
  = Some (Some "1700__a_b.mp3").
Proof.
  refine (proj1 (@unlink_names_the_stored_file
                   (mkRequest None "http" (Some "localhost:4000"))
                   "http" "localhost:4000"
                   (mkReceived "a b.mp3" "1700__a_b.mp3" "1700-x")
                   [song_a] [] eq_refl eq_refl eq_refl _ _) eq_refl).
  - discriminate.
  - intros x [<- | []]. discriminate.
Defined.

Lemma name_is_not_separator (f : string) :
  slashless f = true -> String.prefix "uploads/" f = false.
Proof.
  intros Hf.
  repeat (destruct f as [| ? f]; [reflexivity |];
          rewrite prefix_cons;
          match goal with
          | |- (if ascii_dec ?a ?b then _ else _) = _ =>
              destruct (ascii_dec a b) as [<- | _]; [| reflexivity]
          end;
          simpl in Hf; try discriminate Hf).
Qed.

(** X29.  When the host of the request is called [uploads], the url of a
    stored track reads [.../uploads/uploads/<name>], the first separator
    found is the one made of the host, and the name handed to [unlink] is
    [uploads/<name>] instead of the name the file was stored under. *)
Theorem unlink_misses_under_host_uploads (req : Request) (proto : string)
    (file : Received) (before rest : list Track) :
  getOrigin req = (proto ++ "://uploads")%string ->
  slashless proto = true ->
  slashless (filename file) = true ->
  (forall x, In x before -> id x <> minted file) ->
  snd (delete_track req (minted file) (before ++ track_of req file :: rest))
  = Some (Some ("uploads/" ++ filename file)%string).
Proof.
  intros Horigin Hproto Hfile Hbefore. unfold delete_track, findIndex.
  rewrite findIndex_from_first by (try assumption; reflexivity).
  simpl (0 + _). pose proof (length_nonneg before).
  destruct (Z.eqb_spec (Js.length before) (-1)); [lia |].
  rewrite get_middle.
  assert (Hurl : url (track_of req file)
                 = ((getOrigin req ++ "/uploads/") ++ filename file)%string).
  { unfold track_of, absoluteUrl. simpl.
    change (String "/" (String "u" (String "p" (String "l" (String "o"
              (String "a" (String "d" (String "s" (String "/"
                 (filename file))))))))))
      with ("/uploads/" ++ filename file)%string.
    now rewrite string_app_assoc. }
  rewrite Hurl, prefix_app. simpl snd. do 2 f_equal.
  rewrite Horigin, !string_app_assoc.
  unfold second_piece.
  rewrite cut_slashless by exact Hproto.
  change ("://uploads" ++ "/uploads/" ++ filename file)%string
    with (String ":" (String "/"
            ("/uploads/" ++ ("uploads/" ++ filename file))))%string.
  rewrite cut_other by reflexivity.
  rewrite (cut_eq _ (String "/" _)).
  rewrite prefix_cons.
  destruct (ascii_dec "/" "/") as [_ | N]; [| contradiction].
  assert (String.prefix "uploads/"
            ("/uploads/" ++ ("uploads/" ++ filename file)) = false) as ->
    by reflexivity.
  rewrite (cut_eq _ ("/uploads/" ++ _)), prefix_app.
  change (skip_chars (String.length "/uploads/")
               ("/uploads/" ++ ("uploads/" ++ filename file)))%string
    with ("uploads/" ++ filename file)%string.
  simpl snd. cbv iota.
  enough (Hrest : fst (cut "/uploads/"
                           ("uploads" ++ String "/" (filename file)))
                  = ("uploads" ++ String "/" (filename file))%string)
    by exact (f_equal Some Hrest).
  rewrite cut_slashless by reflexivity.
  rewrite (cut_eq _ (String "/" (filename file))), prefix_cons.
  destruct (ascii_dec "/" "/") as [_ | N]; [| contradiction].
  rewrite name_is_not_separator by exact Hfile.
  pose proof (@cut_whole (filename file) Hfile) as Hwhole.
  destruct (cut "/uploads/" (filename file)) as [piece more].
  simpl in Hwhole. subst piece. reflexivity.
Qed.

Lemma unlink_misses_under_host_uploads_witness :
  snd (delete_track (mkRequest None "http" (Some "uploads")) "1700-x"
                    [track_of (mkRequest None "http" (Some "uploads"))
                              (mkReceived "a b.mp3" "1700__a_b.mp3" "1700-x")])
  = Some (Some "uploads/1700__a_b.mp3").
Proof.
  refine (@unlink_misses_under_host_uploads
            (mkRequest None "http" (Some "uploads")) "http"
            (mkReceived "a b.mp3" "1700__a_b.mp3" "1700-x")
            [] [] eq_refl eq_refl eq_refl _).
  intros x [].
Defined.
